(** * A shallow embedding of the segmented write-ahead log (package [wal])

    The development follows the Go sources: [utils/helpers.go],
    [utils/pb_helpers.go], [wal.go], [read.go], and the write path
    ([Flush], [writeEntry], [changeLogSegment], ...).

    Conventions.
    - Go's fixed-width integers are [Z] with the wrap-around written out.
    - A byte slice is a [list byte].
    - A Go [error] result is an [option error] ([None] is [nil]).
    - The directory of the log is a list of named files; the operating
      system may refuse a system call, which is recorded per kind of call
      in the [World].
    - The parts of Go's library the functions rest on are embedded from
      their documented behaviour: [bufio.Writer] with its 4096-byte
      buffer and sticky error, [encoding/binary]'s [Read] and [Write] of
      an [int32], [io.ReadFull], [strconv], [filepath.Glob] and
      [hash/crc32].
    - The background flusher ([keepSyncing]) is a goroutine and is not part
      of the embedding; [Flush] itself is. *)

From Stdlib Require Import ZArith List Bool String Ascii Lia DecimalString.
From Stdlib Require Import DecimalPos.
From Stdlib Require Import Strings.Byte.
Import ListNotations.
Open Scope Z_scope.

(* ================================================================= *)
(** ** Machine integers and bytes *)

Definition uint64 (z : Z) : Z := z mod 2 ^ 64.
Definition uint32 (z : Z) : Z := z mod 2 ^ 32.

(** Conversion [int64(x)] of an unsigned 64-bit value. *)
Definition int64 (z : Z) : Z :=
  let m := z mod 2 ^ 64 in if m <? 2 ^ 63 then m else m - 2 ^ 64.

(** Conversion [int32(x)]. *)
Definition int32 (z : Z) : Z :=
  let m := z mod 2 ^ 32 in if m <? 2 ^ 31 then m else m - 2 ^ 32.

Definition Z_of_byte (b : byte) : Z := Z.of_N (Byte.to_N b).

(** Conversion [byte(x)]: the low-order eight bits. *)
Definition byte_of_Z (z : Z) : byte :=
  match Byte.of_N (Z.to_N (z mod 256)) with
  | Some b => b
  | None => x00
  end.

Definition len {A} (l : list A) : Z := Z.of_nat (List.length l).

(** Little-endian layout of the low [n] bytes of [z]
    ([binary.LittleEndian.PutUint32] for [n = 4]). *)
Fixpoint le_encode (n : nat) (z : Z) : list byte :=
  match n with
  | O => []
  | S n' => byte_of_Z z :: le_encode n' (z / 256)
  end.

(** Little-endian value of a byte string ([binary.LittleEndian.Uint32]). *)
Fixpoint le_decode (bs : list byte) : Z :=
  match bs with
  | [] => 0
  | b :: bs' => Z_of_byte b + 256 * le_decode bs'
  end.

(* ================================================================= *)
(** ** [hash/crc32]: [crc32.ChecksumIEEE] *)

Definition crc_step (c : Z) : Z :=
  if Z.testbit c 0
  then Z.lxor (Z.shiftr c 1) 0xEDB88320
  else Z.shiftr c 1.

Definition crc_byte (c : Z) (b : byte) : Z :=
  let c0 := Z.lxor c (Z_of_byte b) in
  crc_step (crc_step (crc_step (crc_step
    (crc_step (crc_step (crc_step (crc_step c0))))))).

Definition ChecksumIEEE (data : list byte) : Z :=
  Z.lxor (fold_left crc_byte data 0xFFFFFFFF) 0xFFFFFFFF.

(* ================================================================= *)
(** ** [types.WAL_Entry] and the entry codec *)

(** The generated message type: [IsCheckpoint] is an optional field
    (a [*bool] in Go). *)
Record WAL_Entry := mkEntry {
  LogSequenceNumber : Z;        (* uint64 *)
  Data : list byte;
  CRC : Z;                      (* uint32 *)
  IsCheckpoint : option bool
}.

(** [GetIsCheckpoint]: the generated getter, false when the field is
    absent. *)
Definition GetIsCheckpoint (e : WAL_Entry) : bool :=
  match IsCheckpoint e with
  | Some b => b
  | None => false
  end.

Definition entry_in_range (e : WAL_Entry) : Prop :=
  0 <= LogSequenceNumber e < 2 ^ 64 /\ 0 <= CRC e < 2 ^ 32.

(** The serialisation of an entry ([proto.Marshal] / [proto.Unmarshal]
    behind [MustMarshal] / [MustUnmarshal]) is taken as a parameter: the
    message definition is not part of the sources.  [MustUnmarshal]
    answers [None] where the Go helper panics. *)
Class EntryCodec := {
  MustMarshal : WAL_Entry -> list byte;
  MustUnmarshal : list byte -> option WAL_Entry
}.

(** The only law assumed of a codec: a marshalled entry is unmarshalled
    to itself. *)
Definition codec_roundtrip (codec : EntryCodec) : Prop :=
  forall e, entry_in_range e -> MustUnmarshal (MustMarshal e) = Some e.

(* ================================================================= *)
(** ** Errors and results *)

(** The kinds of system call the log issues. *)
Inductive Syscall :=
| SysMkdir | SysOpen | SysSeek | SysRead | SysWrite
| SysSync | SysStat | SysClose | SysRemove | SysCreate.

Inductive error :=
| EOF                              (* io.EOF *)
| ErrUnexpectedEOF                 (* io.ErrUnexpectedEOF *)
| ErrInvalidType                   (* "binary.Read: invalid type int32" *)
| ErrCRCMismatch                   (* "CRC mismatch: Data in the entry maybe be corrupted" *)
| ErrSyntax                        (* strconv.ErrSyntax *)
| ErrRange                         (* strconv.ErrRange *)
| ErrClosed                        (* os.ErrClosed *)
| ErrNotExist                      (* os.ErrNotExist *)
| ErrSys (s : Syscall)             (* the operating system refused the call *)
| ErrCheckpointFlush (e : error).  (* "error while flushing, could not create checkpoint: %v" *)

Inductive res (A : Type) :=
| Ok (a : A)
| Err (e : error).
Arguments Ok {A} a.
Arguments Err {A} e.

(** What running a Go function can lead to: a normal return, a panic, or
    (in the embedding of a [for] loop only) the loop budget running out. *)
Inductive outcome (A : Type) :=
| Done (a : A)
| Panic
| OutOfFuel.
Arguments Done {A} a.
Arguments Panic {A}.
Arguments OutOfFuel {A}.

Definition is_nil {A} (o : option A) : bool :=
  match o with
  | None => true
  | Some _ => false
  end.

(* ================================================================= *)
(** ** [utils/helpers.go]: checksum verification *)

Section Codec.
Context {codec : EntryCodec}.

(** [isValidCRC]: the checksum is recomputed over the payload followed by
    [byte(entry.GetLogSequenceNumber())]. *)
Definition isValidCRC (entry : WAL_Entry) : bool :=
  ChecksumIEEE (Data entry ++ [byte_of_Z (LogSequenceNumber entry)])
  =? CRC entry.

(** [UnmarshalAndVerifyEntry]. *)
Definition UnmarshalAndVerifyEntry (data : list byte)
  : outcome (res WAL_Entry) :=
  match MustUnmarshal data with
  | None => Panic
  | Some entry =>
      if negb (isValidCRC entry) then Done (Err ErrCRCMismatch)
      else Done (Ok entry)
  end.

End Codec.

(* ================================================================= *)
(** ** [strconv] and segment names *)

Definition SegmentPrefix : string := "segment-"%string.

Definition is_digit (c : ascii) : bool :=
  let n := Z.of_nat (nat_of_ascii c) in (48 <=? n) && (n <=? 57).

Definition digit_val (c : ascii) : Z := Z.of_nat (nat_of_ascii c) - 48.

Definition maxUint64 : Z := 2 ^ 64 - 1.

(** The digit loop of [strconv.ParseUint(s, 10, 0)], with accumulator
    [n]; [cutoff] is [maxUint64/10 + 1]. *)
Fixpoint parse_digits (s : string) (n : Z) : res Z :=
  match s with
  | EmptyString => Ok n
  | String c s' =>
      if negb (is_digit c) then Err ErrSyntax
      else if n >=? maxUint64 / 10 + 1 then Err ErrRange
      else
        let n1 := n * 10 + digit_val c in
        if n1 >? maxUint64 then Err ErrRange
        else parse_digits s' n1
  end.

Definition ParseUint (s : string) : res Z :=
  match s with
  | EmptyString => Err ErrSyntax
  | _ => parse_digits s 0
  end.

(** [strconv.Atoi]: an optional sign, then digits, within [int]. *)
Definition Atoi (s : string) : res Z :=
  match s with
  | EmptyString => Err ErrSyntax
  | String c s' =>
      let neg := Ascii.eqb c "-"%char in
      let body := if Ascii.eqb c "-"%char || Ascii.eqb c "+"%char then s' else s in
      match body with
      | EmptyString => Err ErrSyntax
      | _ =>
          match parse_digits body 0 with
          | Err e => Err e
          | Ok un =>
              if negb neg && (un >=? 2 ^ 63) then Err ErrRange
              else if neg && (un >? 2 ^ 63) then Err ErrRange
              else Ok (if neg then - un else un)
          end
      end
  end.

(** [strings.TrimPrefix]. *)
Definition TrimPrefix (s pre : string) : string :=
  if String.prefix pre s
  then String.substring (String.length pre)
         (String.length s - String.length pre) s
  else s.

(** [fmt.Sprintf("%s%d", SegmentPrefix, id)]. *)
Definition segmentName (id : Z) : string :=
  String.append SegmentPrefix (NilZero.string_of_int (Z.to_int id)).

(** [FindLastSegmentId]: file names are represented without their
    directory part, which is what [filepath.Split] leaves. *)
Fixpoint FindLastSegmentId_from (files : list string) (lastSegmentId : Z)
  : res Z :=
  match files with
  | [] => Ok lastSegmentId
  | file :: rest =>
      match ParseUint (TrimPrefix file SegmentPrefix) with
      | Err e => Err e
      | Ok curSegmentId =>
          FindLastSegmentId_from rest
            (if curSegmentId >? lastSegmentId then curSegmentId
             else lastSegmentId)
      end
  end.

Definition FindLastSegmentId (files : list string) : res Z :=
  FindLastSegmentId_from files 0.

(* ================================================================= *)
(** ** The directory and the operating system *)

(** The log directory holds named files.  [refuses] tells which kinds of
    system call the operating system currently turns down; a refused
    write transfers no bytes. *)
Record World := mkWorld {
  files : list (string * list byte);
  refuses : Syscall -> bool
}.

Definition set_files (w : World) (fs : list (string * list byte)) : World :=
  {| files := fs; refuses := refuses w |}.

Fixpoint lookup (name : string) (fs : list (string * list byte))
  : option (list byte) :=
  match fs with
  | [] => None
  | (n, c) :: rest => if String.eqb n name then Some c else lookup name rest
  end.

Definition content (w : World) (name : string) : list byte :=
  match lookup name (files w) with
  | Some c => c
  | None => []
  end.

(** Replace the contents of an existing file. *)
Fixpoint store (name : string) (c : list byte) (fs : list (string * list byte))
  : list (string * list byte) :=
  match fs with
  | [] => []
  | (n, c0) :: rest =>
      if String.eqb n name then (n, c) :: rest
      else (n, c0) :: store name c rest
  end.

(** Create the file, or truncate it when it exists ([os.Create]). *)
Definition create (name : string) (fs : list (string * list byte))
  : list (string * list byte) :=
  match lookup name fs with
  | Some _ => store name [] fs
  | None => fs ++ [(name, [])]
  end.

Fixpoint remove (name : string) (fs : list (string * list byte))
  : list (string * list byte) :=
  match fs with
  | [] => []
  | (n, c) :: rest =>
      if String.eqb n name then rest else (n, c) :: remove name rest
  end.

(** Insertion into a list of names sorted by byte-wise string order. *)
Fixpoint insert_sorted (s : string) (l : list string) : list string :=
  match l with
  | [] => [s]
  | x :: rest =>
      if String.leb s x then s :: l else x :: insert_sorted s rest
  end.

Definition sort_names (l : list string) : list string :=
  fold_right insert_sorted [] l.

(** [filepath.Glob(filepath.Join(directory, "segment-*"))]: the names in the
    directory that start with the prefix, in the sorted order in which
    [Glob] lists a directory.  (This pattern cannot be malformed, so
    [Glob] returns no error.) *)
Definition Glob (w : World) : list string :=
  sort_names (filter (String.prefix SegmentPrefix) (map fst (files w))).

(** An open file ([os.File]): the file it names and whether it has been
    closed.  A descriptor is identified with the name it was opened
    under; the log never removes or renames a segment it holds open
    ([changeLogSegment] closes the current segment before it deletes or
    creates one). *)
Record File := mkFile {
  Name : string;
  closed : bool
}.

(** [File.Write] on a descriptor opened with [O_APPEND]. *)
Definition file_Write (w : World) (f : File) (p : list byte)
  : World * option error :=
  if closed f then (w, Some ErrClosed)
  else if refuses w SysWrite then (w, Some (ErrSys SysWrite))
  else (set_files w (store (Name f) (content w (Name f) ++ p) (files w)), None).

(** [File.Sync]. *)
Definition file_Sync (w : World) (f : File) : option error :=
  if closed f then Some ErrClosed
  else if refuses w SysSync then Some (ErrSys SysSync)
  else None.

(** [File.Stat] followed by [Size()]. *)
Definition file_Stat_Size (w : World) (f : File) : res Z :=
  if closed f then Err ErrClosed
  else if refuses w SysStat then Err (ErrSys SysStat)
  else Ok (len (content w (Name f))).

(** [File.Close]: the descriptor is released even when the call
    reports an error. *)
Definition file_Close (w : World) (f : File) : File * option error :=
  if closed f then (f, Some ErrClosed)
  else ({| Name := Name f; closed := true |},
        if refuses w SysClose then Some (ErrSys SysClose) else None).

(* ================================================================= *)
(** ** [bufio.Writer] *)

(** [bufio.NewWriter] allocates [defaultBufSize] bytes. *)
Definition defaultBufSize : Z := 4096.

(** The writer's pending bytes and its sticky error.  The writer of a log
    always wraps the log's [currentSegment] (both are replaced together),
    so the underlying file is passed in by the caller. *)
Record Writer := mkWriter {
  buf : list byte;
  werr : option error
}.

Definition NewWriter : Writer := {| buf := []; werr := None |}.

Definition Buffered (b : Writer) : Z := len (buf b).
Definition Available (b : Writer) : Z := defaultBufSize - len (buf b).

(** [Writer.Flush]. *)
Definition bufio_Flush (f : File) (b : Writer) (w : World)
  : Writer * World * option error :=
  match werr b with
  | Some e => (b, w, Some e)
  | None =>
      if Buffered b =? 0 then (b, w, None)
      else
        match file_Write w f (buf b) with
        | (w', Some e) => ({| buf := buf b; werr := Some e |}, w', Some e)
        | (w', None) => ({| buf := []; werr := None |}, w', None)
        end
  end.

(** The loop of [Writer.Write]:
    [for len(p) > b.Available() && b.err == nil]. *)
Fixpoint bufio_Write_loop (fuel : nat) (f : File) (b : Writer) (w : World)
  (p : list byte) : Writer * World * list byte :=
  match fuel with
  | O => (b, w, p)
  | S fuel' =>
      if (len p >? Available b) && is_nil (werr b) then
        if Buffered b =? 0 then
          (* large write, empty buffer: written directly *)
          match file_Write w f p with
          | (w', Some e) =>
              bufio_Write_loop fuel' f {| buf := buf b; werr := Some e |} w' p
          | (w', None) => bufio_Write_loop fuel' f b w' []
          end
        else
          let n := Z.to_nat (Available b) in
          let b1 := {| buf := buf b ++ firstn n p; werr := werr b |} in
          let '(b2, w2, _) := bufio_Flush f b1 w in
          bufio_Write_loop fuel' f b2 w2 (skipn n p)
      else (b, w, p)
  end.

(** [Writer.Write].  The loop runs at most twice (fill and flush,
    then a direct write), see [bufio_Write_loop_exit]. *)
Definition bufio_Write (f : File) (b : Writer) (w : World) (p : list byte)
  : Writer * World * option error :=
  let '(b1, w1, p1) := bufio_Write_loop 3 f b w p in
  match werr b1 with
  | Some e => (b1, w1, Some e)
  | None => ({| buf := buf b1 ++ p1; werr := None |}, w1, None)
  end.

(* ================================================================= *)
(** ** [wal.go]: the log instance *)

(** The [WAL] struct.  The directory is the [World]; the mutex, the flush
    timer and the context belong to the concurrent part and are left
    out. *)
Record WAL := mkWAL {
  currentSegment : File;
  lastSequenceNumber : Z;       (* uint64 *)
  bufferWriter : Writer;
  maxSegmentSize : Z;           (* uint64 *)
  maxSegmentsNumber : Z;        (* uint *)
  currentSegmentIndex : Z;      (* uint *)
  shouldFsync : bool
}.

Definition set_segment (wal : WAL) (f : File) : WAL :=
  {| currentSegment := f;
     lastSequenceNumber := lastSequenceNumber wal;
     bufferWriter := bufferWriter wal;
     maxSegmentSize := maxSegmentSize wal;
     maxSegmentsNumber := maxSegmentsNumber wal;
     currentSegmentIndex := currentSegmentIndex wal;
     shouldFsync := shouldFsync wal |}.

Definition set_lsn (wal : WAL) (n : Z) : WAL :=
  {| currentSegment := currentSegment wal;
     lastSequenceNumber := n;
     bufferWriter := bufferWriter wal;
     maxSegmentSize := maxSegmentSize wal;
     maxSegmentsNumber := maxSegmentsNumber wal;
     currentSegmentIndex := currentSegmentIndex wal;
     shouldFsync := shouldFsync wal |}.

Definition set_writer (wal : WAL) (b : Writer) : WAL :=
  {| currentSegment := currentSegment wal;
     lastSequenceNumber := lastSequenceNumber wal;
     bufferWriter := b;
     maxSegmentSize := maxSegmentSize wal;
     maxSegmentsNumber := maxSegmentsNumber wal;
     currentSegmentIndex := currentSegmentIndex wal;
     shouldFsync := shouldFsync wal |}.

Definition set_index (wal : WAL) (i : Z) : WAL :=
  {| currentSegment := currentSegment wal;
     lastSequenceNumber := lastSequenceNumber wal;
     bufferWriter := bufferWriter wal;
     maxSegmentSize := maxSegmentSize wal;
     maxSegmentsNumber := maxSegmentsNumber wal;
     currentSegmentIndex := i;
     shouldFsync := shouldFsync wal |}.

(** [Flush]: drain the buffer to the segment file, [Sync] when asked to. *)
Definition Flush (wal : WAL) (w : World) : WAL * World * option error :=
  match bufio_Flush (currentSegment wal) (bufferWriter wal) w with
  | (b, w1, Some e) => (set_writer wal b, w1, Some e)
  | (b, w1, None) =>
      if shouldFsync wal then
        match file_Sync w1 (currentSegment wal) with
        | Some e => (set_writer wal b, w1, Some e)
        | None => (set_writer wal b, w1, None)
        end
      else (set_writer wal b, w1, None)
  end.

(** [Close]: final flush, then the segment file is closed. *)
Definition Close (wal : WAL) (w : World) : WAL * World * option error :=
  match Flush wal w with
  | (wal1, w1, Some e) => (wal1, w1, Some e)
  | (wal1, w1, None) =>
      let '(f, e) := file_Close w1 (currentSegment wal1) in
      (set_segment wal1 f, w1, e)
  end.

(* ================================================================= *)
(** ** Rotation and retention *)

(** [utils.CreateSegmentFile(directory, segmentId)]. *)
Definition CreateSegmentFile (w : World) (segmentId : Z) : World * res File :=
  if refuses w SysCreate then (w, Err (ErrSys SysCreate))
  else
    let filePath := segmentName segmentId in
    (set_files w (create filePath (files w)),
     Ok {| Name := filePath; closed := false |}).

Definition MaxInt64 : Z := 2 ^ 63 - 1.

(** The loop of [findOldestSegmentFile]. *)
Fixpoint findOldest_from (fs : list string) (oldestSegmentFilePath : string)
  (oldestSegmentId : Z) : res string :=
  match fs with
  | [] => Ok oldestSegmentFilePath
  | file :: rest =>
      match Atoi (TrimPrefix file SegmentPrefix) with
      | Err e => Err e
      | Ok segmentIdx =>
          if segmentIdx <? oldestSegmentId
          then findOldest_from rest file segmentIdx
          else findOldest_from rest oldestSegmentFilePath oldestSegmentId
      end
  end.

Definition findOldestSegmentFile (fs : list string) : res string :=
  findOldest_from fs EmptyString MaxInt64.

(** [os.Remove]. *)
Definition os_Remove (w : World) (name : string) : World * option error :=
  if refuses w SysRemove then (w, Some (ErrSys SysRemove))
  else
    match lookup name (files w) with
    | None => (w, Some ErrNotExist)
    | Some _ => (set_files w (remove name (files w)), None)
    end.

(** [deleteOldestSegment]. *)
Definition deleteOldestSegment (w : World) : World * option error :=
  match Glob w with
  | [] => (w, None)
  | fs =>
      match findOldestSegmentFile fs with
      | Err e => (w, Some e)
      | Ok oldestSegmentFilePath => os_Remove w oldestSegmentFilePath
      end
  end.

(** [changeLogSegment]. *)
Definition changeLogSegment (wal : WAL) (w : World)
  : WAL * World * option error :=
  match Flush wal w with
  | (wal1, w1, Some e) => (wal1, w1, Some e)
  | (wal1, w1, None) =>
      match file_Close w1 (currentSegment wal1) with
      | (f, Some e) => (set_segment wal1 f, w1, Some e)
      | (f, None) =>
          let wal2 :=
            set_index (set_segment wal1 f)
              (uint64 (currentSegmentIndex wal1 + 1)) in
          let '(w2, derr) :=
            if currentSegmentIndex wal2 >? maxSegmentsNumber wal2
            then deleteOldestSegment w1
            else (w1, None) in
          match derr with
          | Some e => (wal2, w2, Some e)
          | None =>
              match CreateSegmentFile w2 (int64 (currentSegmentIndex wal2)) with
              | (w3, Err e) => (wal2, w3, Some e)
              | (w3, Ok newFile) =>
                  (set_writer (set_segment wal2 newFile) NewWriter, w3, None)
              end
          end
      end
  end.

(** [changeLogSegmentIfNeeded]. *)
Definition changeLogSegmentIfNeeded (wal : WAL) (w : World)
  : WAL * World * option error :=
  match file_Stat_Size w (currentSegment wal) with
  | Err e => (wal, w, Some e)
  | Ok size =>
      if size + Buffered (bufferWriter wal) >=? int64 (maxSegmentSize wal)
      then changeLogSegment wal w
      else (wal, w, None)
  end.

(* ================================================================= *)
(** ** The append path *)

Section Append.
Context {codec : EntryCodec}.

(** A frame: [int32] little-endian length, then the serialised entry. *)
Definition frame (entry : WAL_Entry) : list byte :=
  le_encode 4 (int32 (len (MustMarshal entry))) ++ MustMarshal entry.

(** [writeEntryToBuffer]. *)
Definition writeEntryToBuffer (wal : WAL) (w : World) (entry : WAL_Entry)
  : WAL * World * option error :=
  let serializedEntry := MustMarshal entry in
  let size := int32 (len serializedEntry) in
  match bufio_Write (currentSegment wal) (bufferWriter wal) w
          (le_encode 4 size) with
  | (b, w1, Some e) => (set_writer wal b, w1, Some e)
  | (b, w1, None) =>
      let '(b2, w2, e) :=
        bufio_Write (currentSegment wal) b w1 serializedEntry in
      (set_writer wal b2, w2, e)
  end.

(** The entry built by [writeEntry] for sequence number [lsn]. *)
Definition newEntry (lsn : Z) (data : list byte) (isCheckpoint : bool)
  : WAL_Entry :=
  {| LogSequenceNumber := lsn;
     Data := data;
     CRC := ChecksumIEEE (data ++ [byte_of_Z lsn]);
     IsCheckpoint := if isCheckpoint then Some true else None |}.

(** [writeEntry]. *)
Definition writeEntry (wal : WAL) (w : World) (data : list byte)
  (isCheckpoint : bool) : WAL * World * option error :=
  match changeLogSegmentIfNeeded wal w with
  | (wal1, w1, Some e) => (wal1, w1, Some e)
  | (wal1, w1, None) =>
      let wal2 := set_lsn wal1 (uint64 (lastSequenceNumber wal1 + 1)) in
      if isCheckpoint then
        match Flush wal2 w1 with
        | (wal3, w3, Some e) => (wal3, w3, Some (ErrCheckpointFlush e))
        | (wal3, w3, None) =>
            writeEntryToBuffer wal3 w3
              (newEntry (lastSequenceNumber wal2) data true)
        end
      else
        writeEntryToBuffer wal2 w1
          (newEntry (lastSequenceNumber wal2) data false)
  end.

(** [WriteEntry] and [CreateCheckpoint]: both return only an [error]. *)
Definition WriteEntry (wal : WAL) (w : World) (data : list byte)
  : WAL * World * option error :=
  writeEntry wal w data false.


End Append.

(* ================================================================= *)
(** ** Reading files *)

(** [os.OpenFile(name, os.O_RDONLY, 0644)]: the reader sees the bytes the
    file holds. *)
Definition OpenFile_rdonly (w : World) (name : string) : res (list byte) :=
  if refuses w SysOpen then Err (ErrSys SysOpen)
  else
    match lookup name (files w) with
    | None => Err ErrNotExist
    | Some c => Ok c
    end.

(** [os.OpenFile(name, os.O_APPEND|os.O_CREATE|os.O_WRONLY, 0644)]. *)
Definition OpenFile_append (w : World) (name : string) : World * res File :=
  if refuses w SysOpen then (w, Err (ErrSys SysOpen))
  else
    (match lookup name (files w) with
     | Some _ => w
     | None => set_files w (files w ++ [(name, [])])
     end,
     Ok {| Name := name; closed := false |}).

(** [io.ReadFull(file, data)] with [len(data) = n], on the unread
    remainder [rest] of the file; answers the new remainder. *)
Definition ReadFull (w : World) (rest : list byte) (n : Z)
  : list byte * res (list byte) :=
  if n =? 0 then (rest, Ok [])
  else if refuses w SysRead then (rest, Err (ErrSys SysRead))
  else
    match rest with
    | [] => (rest, Err EOF)
    | _ =>
        if len rest <? n then ([], Err ErrUnexpectedEOF)
        else (skipn (Z.to_nat n) rest, Ok (firstn (Z.to_nat n) rest))
    end.

(** [binary.Read(file, binary.LittleEndian, &size)]: four bytes are read
    and stored through the pointer. *)
Definition binary_Read_ptr (w : World) (rest : list byte)
  : list byte * res Z :=
  match ReadFull w rest 4 with
  | (rest1, Err e) => (rest1, Err e)
  | (rest1, Ok bs) => (rest1, Ok (int32 (le_decode bs)))
  end.

(** [binary.Read(file, binary.LittleEndian, size)] with [size] an [int32]
    passed by value: [encoding/binary] sizes the value as four bytes and
    reads them, then finds no pointer or slice to store into, and returns
    the error "invalid type int32".  The caller's variable is untouched;
    the result is never [nil]. *)
Definition binary_Read_val (w : World) (rest : list byte)
  : list byte * option error :=
  match ReadFull w rest 4 with
  | (rest1, Err e) => (rest1, Some e)
  | (rest1, Ok _) => (rest1, Some ErrInvalidType)
  end.

Section Reader.
Context {codec : EntryCodec}.

(** The loop of [readAllEntriesFromFile]. *)
Fixpoint readAll_loop (fuel : nat) (w : World) (rest : list byte)
  (fromCheckPoint : bool) (entries : list WAL_Entry) (checkPointLSN : Z)
  : outcome (list WAL_Entry * Z * option error) :=
  match fuel with
  | O => OutOfFuel
  | S fuel' =>
      match binary_Read_ptr w rest with
      | (_, Err EOF) => Done (entries, checkPointLSN, None)
      | (_, Err e) => Done (entries, checkPointLSN, Some e)
      | (rest1, Ok size) =>
          if size <? 0 then Panic            (* make([]byte, size) *)
          else
            match ReadFull w rest1 size with
            | (_, Err e) => Done (entries, checkPointLSN, Some e)
            | (rest2, Ok data) =>
                match UnmarshalAndVerifyEntry data with
                | Panic => Panic
                | OutOfFuel => OutOfFuel
                | Done (Err e) => Done (entries, checkPointLSN, Some e)
                | Done (Ok entry) =>
                    if negb (is_nil (IsCheckpoint entry))
                       && GetIsCheckpoint entry && fromCheckPoint
                    then readAll_loop fuel' w rest2 fromCheckPoint
                           [entry] (LogSequenceNumber entry)
                    else readAll_loop fuel' w rest2 fromCheckPoint
                           (entries ++ [entry]) checkPointLSN
                end
            end
      end
  end.

(** [readAllEntriesFromFile]: every turn of the loop consumes at least the
    four bytes of a length field, so a budget of one more than the file's
    length is never used up ([readAll_loop_total]). *)
Definition readAllEntriesFromFile (w : World) (file : list byte)
  (fromCheckPoint : bool) : outcome (list WAL_Entry * Z * option error) :=
  if refuses w SysSeek then Done ([], 0, Some (ErrSys SysSeek))
  else readAll_loop (S (List.length file)) w file fromCheckPoint [] 0.

(** [ReadAllFromCurrent]. *)
Definition ReadAllFromCurrent (wal : WAL) (w : World) (fromCheckpoint : bool)
  : outcome (list WAL_Entry * option error) :=
  match OpenFile_rdonly w (Name (currentSegment wal)) with
  | Err e => Done ([], Some e)
  | Ok file =>
      match readAllEntriesFromFile w file fromCheckpoint with
      | Panic => Panic
      | OutOfFuel => OutOfFuel
      | Done (entries, _, Some e) => Done (entries, Some e)
      | Done (entries, checkPointLSN, None) =>
          if fromCheckpoint && (checkPointLSN <=? 0) then Done ([], None)
          else Done (entries, None)
      end
  end.

(** The loop of [ReadAllFromIndex] over the listed files. *)
Fixpoint ReadAllFromIndex_loop (w : World) (fs : list string) (index : Z)
  (fromCheckpoint : bool) (entries : list WAL_Entry) (prevCheckPointLSN : Z)
  : outcome (list WAL_Entry * option error) :=
  match fs with
  | [] => Done (entries, None)
  | fileName :: rest =>
      match Atoi (TrimPrefix fileName SegmentPrefix) with
      | Err e => Done ([], Some e)
      | Ok segmentIdx =>
          if segmentIdx <? index
          then ReadAllFromIndex_loop w rest index fromCheckpoint
                 entries prevCheckPointLSN
          else
            match OpenFile_rdonly w fileName with
            | Err e => Done ([], Some e)
            | Ok file =>
                match readAllEntriesFromFile w file fromCheckpoint with
                | Panic => Panic
                | OutOfFuel => OutOfFuel
                | Done (_, _, Some e) => Done (entries, Some e)
                | Done (entriesFromCurrentSegment, checkPointLSN, None) =>
                    if fromCheckpoint && (checkPointLSN >? prevCheckPointLSN)
                    then ReadAllFromIndex_loop w rest index fromCheckpoint
                           ([] ++ entriesFromCurrentSegment) checkPointLSN
                    else ReadAllFromIndex_loop w rest index fromCheckpoint
                           (entries ++ entriesFromCurrentSegment)
                           prevCheckPointLSN
                end
            end
      end
  end.

(** [ReadAllFromIndex]. *)
Definition ReadAllFromIndex (w : World) (index : Z) (fromCheckpoint : bool)
  : outcome (list WAL_Entry * option error) :=
  ReadAllFromIndex_loop w (Glob w) index fromCheckpoint [] 0.

(* ================================================================= *)
(** ** [read.go]: recovery of the last sequence number *)

(** The loop of [getLastEntryInCurrentSegment].  [file] is the whole file
    and [pos] the read offset.  The variable [size] is declared in each
    turn and handed to [binary.Read] by value, so it is zero wherever it
    is used. *)
Fixpoint getLastEntry_loop (fuel : nat) (w : World) (file : list byte)
  (pos prevSize offset : Z) : outcome (res (option WAL_Entry)) :=
  match fuel with
  | O => OutOfFuel
  | S fuel' =>
      let size := 0 in
      match binary_Read_val w (skipn (Z.to_nat pos) file) with
      | (_, Some EOF) =>
          if offset =? 0 then Done (Ok None)
          else if refuses w SysSeek then Done (Err (ErrSys SysSeek))
          else if prevSize <? 0 then Panic   (* make([]byte, prevSize) *)
          else
            match ReadFull w (skipn (Z.to_nat offset) file) prevSize with
            | (_, Err e) => Done (Err e)
            | (_, Ok data) =>
                match UnmarshalAndVerifyEntry data with
                | Panic => Panic
                | OutOfFuel => OutOfFuel
                | Done (Err e) => Done (Err e)
                | Done (Ok entry) => Done (Ok (Some entry))
                end
            end
      | (_, Some e) => Done (Err e)
      | (rest1, None) =>
          if refuses w SysSeek then Done (Err (ErrSys SysSeek))
          else
            let offset' := len file - len rest1 in
            getLastEntry_loop fuel' w file (offset' + size) size offset'
      end
  end.

(** [getLastEntryInCurrentSegment]. *)
Definition getLastEntryInCurrentSegment (wal : WAL) (w : World)
  : outcome (res (option WAL_Entry)) :=
  match OpenFile_rdonly w (Name (currentSegment wal)) with
  | Err e => Done (Err e)
  | Ok file => getLastEntry_loop (S (List.length file)) w file 0 0 0
  end.

(** [getLastSequenceNumber]. *)
Definition getLastSequenceNumber (wal : WAL) (w : World)
  : outcome (res Z) :=
  match getLastEntryInCurrentSegment wal w with
  | Panic => Panic
  | OutOfFuel => OutOfFuel
  | Done (Err e) => Done (Err e)
  | Done (Ok (Some lastEntry)) => Done (Ok (LogSequenceNumber lastEntry))
  | Done (Ok None) => Done (Ok 0)
  end.

(** [GetWAL]. *)
Definition GetWAL (w : World) (enableFsync : bool)
  (maxFileSize maxSegments : Z) : World * outcome (res WAL) :=
  if refuses w SysMkdir then (w, Done (Err (ErrSys SysMkdir)))
  else
    let found :=
      match Glob w with
      | [] => Ok 0
      | fs => FindLastSegmentId fs
      end in
    match found with
    | Err e => (w, Done (Err e))
    | Ok lastSegmentId =>
        match OpenFile_append w (segmentName lastSegmentId) with
        | (w1, Err e) => (w1, Done (Err e))
        | (w1, Ok lastSegmentFile) =>
            if refuses w1 SysSeek then (w1, Done (Err (ErrSys SysSeek)))
            else
              let wal :=
                {| currentSegment := lastSegmentFile;
                   lastSequenceNumber := 0;
                   bufferWriter := NewWriter;
                   maxSegmentSize := maxFileSize;
                   maxSegmentsNumber := maxSegments;
                   currentSegmentIndex := lastSegmentId;
                   shouldFsync := enableFsync |} in
              match getLastSequenceNumber wal w1 with
              | Panic => (w1, Panic)
              | OutOfFuel => (w1, OutOfFuel)
              | Done (Err e) => (w1, Done (Err e))
              | Done (Ok lsn) => (w1, Done (Ok (set_lsn wal lsn)))
              end
        end
    end.

End Reader.

(* ================================================================= *)
(** ** A concrete codec *)

Definition flag_byte (o : option bool) : byte :=
  match o with
  | None => x00
  | Some false => x01
  | Some true => x02
  end.

Definition flag_of_byte (b : byte) : option (option bool) :=
  match b with
  | x00 => Some None
  | x01 => Some (Some false)
  | x02 => Some (Some true)
  | _ => None
  end.

Definition sample_marshal (e : WAL_Entry) : list byte :=
  le_encode 8 (LogSequenceNumber e) ++ le_encode 4 (CRC e)
  ++ [flag_byte (IsCheckpoint e)] ++ Data e.

Definition sample_unmarshal (data : list byte) : option WAL_Entry :=
  match skipn 12 data with
  | [] => None
  | fb :: payload =>
      match flag_of_byte fb with
      | None => None
      | Some flag =>
          Some {| LogSequenceNumber := le_decode (firstn 8 data);
                  Data := payload;
                  CRC := le_decode (firstn 4 (skipn 8 data));
                  IsCheckpoint := flag |}
      end
  end.

(** Modelled from the spec: the entry codec.  The message definition
    [types.WAL_Entry] and its wire encoding are not among the sources;
    the spec fixes the four fields of a record and that marshalling and
    unmarshalling are inverse on well-formed records.  This instance lays
    the fields out at fixed width (8 bytes of sequence number, 4 of
    checksum, one flag byte, then the payload) and is used to run the
    functions on explicit directories; the general results below hold
    for every codec. *)
#[export] Instance SampleCodec : EntryCodec := {|
  MustMarshal := sample_marshal;
  MustUnmarshal := sample_unmarshal
|}.

(* ================================================================= *)
(** ** Vocabulary of the properties *)

Section Vocabulary.
Context {codec : EntryCodec}.

(** The file [name] is in the directory. *)
Definition present (w : World) (name : string) : Prop :=
  lookup name (files w) <> None.

(** [w'] is [w] with [bytes] appended to file [name] (when it is there):
    same names, same other files, same behaviour of the system. *)
Definition appended (w w' : World) (name : string) (bytes : list byte)
  : Prop :=
  refuses w' = refuses w /\
  map fst (files w') = map fst (files w) /\
  (forall n, n <> name -> lookup n (files w') = lookup n (files w)) /\
  (forall n, lookup n (files w) = None -> lookup n (files w') = None) /\
  (present w name -> lookup name (files w')
                     = Some (content w name ++ bytes)).

(** Nothing refuses any call. *)
Definition willing (w : World) : Prop := forall s, refuses w s = false.

(** The bytes of the current segment that are on disk or still buffered. *)
Definition pending (wal : WAL) (w : World) : list byte :=
  content w (Name (currentSegment wal)) ++ buf (bufferWriter wal).

(** The rotation test of [changeLogSegmentIfNeeded]. *)
Definition rotates (wal : WAL) (w : World) : bool :=
  match file_Stat_Size w (currentSegment wal) with
  | Ok size => size + Buffered (bufferWriter wal) >=? int64 (maxSegmentSize wal)
  | Err _ => false
  end.

(** The log can take a write: its segment is open and in the directory,
    the writer carries no error, and the system refuses nothing. *)
Definition healthy (wal : WAL) (w : World) : Prop :=
  closed (currentSegment wal) = false /\
  willing w /\
  werr (bufferWriter wal) = None /\
  present w (Name (currentSegment wal)).

(** The numeric suffix of a segment file name, as the code parses it. *)
Definition segmentIdx (file : string) : res Z :=
  Atoi (TrimPrefix file SegmentPrefix).


(** An entry as the log writes it to disk: fields in range, checksum
    right, and a serialisation whose length fits the [int32] length
    field. *)
Definition valid_entry (e : WAL_Entry) : Prop :=
  entry_in_range e /\ isValidCRC e = true /\ len (MustMarshal e) < 2 ^ 31.

(** The bytes of a segment holding the entries [es]. *)
Definition frames (es : list WAL_Entry) : list byte :=
  List.concat (map frame es).

(** What one decoded entry does to the accumulated entries and the
    tracked checkpoint number. *)
Definition scan_step (fromCheckPoint : bool) (st : list WAL_Entry * Z)
  (e : WAL_Entry) : list WAL_Entry * Z :=
  if GetIsCheckpoint e && fromCheckPoint
  then ([e], LogSequenceNumber e)
  else (fst st ++ [e], snd st).

Definition scan (fromCheckPoint : bool) (st : list WAL_Entry * Z)
  (es : list WAL_Entry) : list WAL_Entry * Z :=
  fold_left (scan_step fromCheckPoint) es st.

(** The entries from the last checkpoint record on, if there is one. *)
Fixpoint from_last_checkpoint (es : list WAL_Entry)
  : option (list WAL_Entry) :=
  match es with
  | [] => None
  | e :: rest =>
      match from_last_checkpoint rest with
      | Some l => Some l
      | None => if GetIsCheckpoint e then Some (e :: rest) else None
      end
  end.

(** The sequence number of the first entry of a list, 0 for none. *)
Definition head_lsn (l : list WAL_Entry) : Z :=
  match l with
  | [] => 0
  | e :: _ => LogSequenceNumber e
  end.

(** A segment of the directory as the replay sees it: its name parses to
    an index, and the file holds the frames of valid entries. *)
Definition segment_holds (w : World) (seg : string * list WAL_Entry)
  : Prop :=
  (exists i, segmentIdx (fst seg) = Ok i) /\
  lookup (fst seg) (files w) = Some (frames (snd seg)) /\
  Forall valid_entry (snd seg).

(** The segments whose numeric suffix is at least [index]. *)
Definition from_index (index : Z) (segs : list (string * list WAL_Entry))
  : list (string * list WAL_Entry) :=
  filter (fun seg =>
            match segmentIdx (fst seg) with
            | Ok i => index <=? i
            | Err _ => false
            end) segs.

End Vocabulary.

(* ================================================================= *)
(** ** Scenarios *)

(** An operating system that refuses nothing, and an empty directory. *)
Definition quiet : Syscall -> bool := fun _ => false.

Definition emptyDir : World := {| files := []; refuses := quiet |}.

(** The same directory under another behaviour of the system. *)
Definition with_refuses (w : World) (r : Syscall -> bool) : World :=
  {| files := files w; refuses := r |}.

(** The system refuses the calls of kind [s0] and no others. *)
Definition refusing (s0 : Syscall) : Syscall -> bool :=
  fun s =>
    match s0, s with
    | SysMkdir, SysMkdir | SysOpen, SysOpen | SysSeek, SysSeek
    | SysRead, SysRead | SysWrite, SysWrite | SysSync, SysSync
    | SysStat, SysStat | SysClose, SysClose | SysRemove, SysRemove
    | SysCreate, SysCreate => true
    | _, _ => false
    end.

(** The log and directory after a successful [GetWAL]. *)
Definition opened (r : World * outcome (res WAL)) : option (WAL * World) :=
  match r with
  | (w, Done (Ok wal)) => Some (wal, w)
  | _ => None
  end.

(** Run an operation on the log, provided it reports no error. *)
Definition step (f : WAL -> World -> WAL * World * option error)
  (s : option (WAL * World)) : option (WAL * World) :=
  match s with
  | Some (wal, w) =>
      match f wal w with
      | (wal', w', None) => Some (wal', w')
      | _ => None
      end
  | None => None
  end.

Definition pA : list byte := [x41].
Definition pB : list byte := [x42].
Definition pC : list byte := [x43].

Section Runs.
Context {codec : EntryCodec}.

(** One call of the append interface: payload, checkpoint or not, and
    how the system behaves during the call. *)
Definition Call : Type := list byte * bool * (Syscall -> bool).

(** Run the calls in order as long as they succeed; the answer lists the
    sequence number the log holds after each call. *)
Fixpoint run_calls (wal : WAL) (w : World) (cs : list Call)
  : option (list Z * WAL * World) :=
  match cs with
  | [] => Some ([], wal, w)
  | (data, c, env) :: rest =>
      match writeEntry wal (with_refuses w env) data c with
      | (wal', w', None) =>
          match run_calls wal' w' rest with
          | Some (l, walf, wf) => Some (lastSequenceNumber wal' :: l, walf, wf)
          | None => None
          end
      | (_, _, Some _) => None
      end
  end.

(** [n] successive writes of the payload [pA]. *)
Fixpoint writes (n : nat) (s : option (WAL * World)) : option (WAL * World) :=
  match n with
  | O => s
  | S k => step (fun wal w => WriteEntry wal w pA) (writes k s)
  end.

Definition lsns (r : outcome (list WAL_Entry * option error))
  : option (list Z * option error) :=
  match r with
  | Done (l, e) => Some (map LogSequenceNumber l, e)
  | _ => None
  end.

End Runs.



(** A directory that holds the single empty segment [segment-7]. *)
Definition dir7 : World :=
  {| files := [(segmentName 7, [])]; refuses := quiet |}.


(* ================================================================= *)
(** ** Further vocabulary *)

(** The number a string of decimal digits stands for, read from the left
    after a part of value [n]. *)
Fixpoint uint_value (d : Decimal.uint) (n : Z) : Z :=
  match d with
  | Decimal.Nil => n
  | Decimal.D0 d => uint_value d (n * 10 + 0)
  | Decimal.D1 d => uint_value d (n * 10 + 1)
  | Decimal.D2 d => uint_value d (n * 10 + 2)
  | Decimal.D3 d => uint_value d (n * 10 + 3)
  | Decimal.D4 d => uint_value d (n * 10 + 4)
  | Decimal.D5 d => uint_value d (n * 10 + 5)
  | Decimal.D6 d => uint_value d (n * 10 + 6)
  | Decimal.D7 d => uint_value d (n * 10 + 7)
  | Decimal.D8 d => uint_value d (n * 10 + 8)
  | Decimal.D9 d => uint_value d (n * 10 + 9)
  end.

(** The entry [e] with its sequence number replaced. *)
Definition with_lsn (e : WAL_Entry) (lsn : Z) : WAL_Entry :=
  {| LogSequenceNumber := lsn;
     Data := Data e;
     CRC := CRC e;
     IsCheckpoint := IsCheckpoint e |}.

Section FurtherRuns.
Context {codec : EntryCodec}.

(** The entries a log whose counter stands at [n] builds for the calls
    [cs], one after the other. *)
Fixpoint entries_from (n : Z) (cs : list Call) : list WAL_Entry :=
  match cs with
  | [] => []
  | (data, c, _) :: rest => newEntry (n + 1) data c :: entries_from (n + 1) rest
  end.

End FurtherRuns.

(* ================================================================= *)
(** * Properties *)

(** ** Bytes and little-endian words *)

Lemma Z_of_byte_range (b : byte) : 0 <= Z_of_byte b < 256.
Proof.
  unfold Z_of_byte. pose proof (Byte.to_N_bounded b). lia.
Qed.

Lemma Z_of_byte_of_Z (z : Z) : Z_of_byte (byte_of_Z z) = z mod 256.
Proof.
  unfold byte_of_Z, Z_of_byte.
  assert (Hr : 0 <= z mod 256 < 256) by (apply Z.mod_pos_bound; lia).
  destruct (Byte.of_N (Z.to_N (z mod 256))) as [b|] eqn:E.
  - apply Byte.to_of_N in E. rewrite E. lia.
  - apply Byte.of_N_None_iff in E. lia.
Qed.

Lemma le_encode_length (n : nat) (z : Z) : List.length (le_encode n z) = n.
Proof.
  revert z. induction n as [|n IH]; intros z; simpl; [reflexivity|].
  now rewrite IH.
Qed.

Lemma le_decode_encode (n : nat) (z : Z) :
  0 <= z < 256 ^ Z.of_nat n -> le_decode (le_encode n z) = z.
Proof.
  revert z. induction n as [|n IH]; intros z Hz.
  - simpl in *. lia.
  - cbn [le_encode le_decode]. rewrite Z_of_byte_of_Z.
    rewrite IH.
    + pose proof (Z.div_mod z 256). lia.
    + rewrite Nat2Z.inj_succ, Z.pow_succ_r in Hz by lia.
      split.
      * apply Z.div_pos; lia.
      * apply Z.div_lt_upper_bound; lia.
Qed.

Lemma int32_small (z : Z) : 0 <= z < 2 ^ 31 -> int32 z = z.
Proof.
  intros Hz. unfold int32.
  rewrite Z.mod_small by lia.
  destruct (z <? 2 ^ 31) eqn:E; [reflexivity|].
  apply Z.ltb_ge in E. lia.
Qed.

Lemma skipn_exact {A} (n : nat) (l1 l2 : list A) :
  List.length l1 = n -> skipn n (l1 ++ l2) = l2.
Proof.
  intros <-. rewrite skipn_app, skipn_all, Nat.sub_diag. reflexivity.
Qed.

Lemma firstn_exact {A} (n : nat) (l1 l2 : list A) :
  List.length l1 = n -> firstn n (l1 ++ l2) = l1.
Proof.
  intros <-. rewrite firstn_app, firstn_all, Nat.sub_diag. simpl.
  apply app_nil_r.
Qed.

Lemma sample_codec_roundtrip : codec_roundtrip SampleCodec.
Proof.
  intros e [Hl Hc]. destruct e as [lsn data crc flag].
  cbn [LogSequenceNumber CRC] in Hl, Hc.
  cbn [MustUnmarshal MustMarshal SampleCodec].
  unfold sample_unmarshal, sample_marshal.
  cbn [LogSequenceNumber CRC IsCheckpoint Data].
  set (a8 := le_encode 8 lsn). set (a4 := le_encode 4 crc).
  assert (H8 : List.length a8 = 8%nat) by apply le_encode_length.
  assert (H4 : List.length a4 = 4%nat) by apply le_encode_length.
  replace (skipn 12 (a8 ++ a4 ++ [flag_byte flag] ++ data))
    with (flag_byte flag :: data).
  2:{ rewrite app_assoc. symmetry. apply skipn_exact.
      rewrite length_app, H8, H4. reflexivity. }
  rewrite (firstn_exact 8 a8) by exact H8.
  rewrite (skipn_exact 8 a8) by exact H8.
  rewrite (firstn_exact 4 a4) by exact H4.
  subst a8 a4. rewrite !le_decode_encode by (simpl; lia).
  destruct flag as [[|]|]; reflexivity.
Qed.

(* ================================================================= *)
(** ** The directory *)

Lemma lookup_store_same name c fs :
  lookup name fs <> None -> lookup name (store name c fs) = Some c.
Proof.
  induction fs as [|[n c0] fs IH]; simpl; intros H; [congruence|].
  destruct (String.eqb n name) eqn:E; simpl; rewrite E; auto.
Qed.

Lemma lookup_store_other name n c fs :
  n <> name -> lookup n (store name c fs) = lookup n fs.
Proof.
  intros Hn. induction fs as [|[m c0] fs IH]; simpl; [reflexivity|].
  destruct (String.eqb m name) eqn:E; simpl.
  - apply String.eqb_eq in E. subst m.
    destruct (String.eqb name n) eqn:E2; [|reflexivity].
    apply String.eqb_eq in E2. congruence.
  - now rewrite IH.
Qed.

Lemma lookup_store_none name n c fs :
  lookup n fs = None -> lookup n (store name c fs) = None.
Proof.
  induction fs as [|[m c0] fs IH]; simpl; [auto|].
  destruct (String.eqb m n) eqn:E1; [discriminate|]. intros H.
  destruct (String.eqb m name) eqn:E; simpl; rewrite E1; auto.
Qed.

Lemma map_fst_store name c fs : map fst (store name c fs) = map fst fs.
Proof.
  induction fs as [|[m c0] fs IH]; simpl; [reflexivity|].
  destruct (String.eqb m name); simpl; [reflexivity|now rewrite IH].
Qed.

Lemma appended_refl w name : appended w w name [].
Proof.
  unfold appended, present, content. repeat split; auto.
  intros H. destruct (lookup name (files w)); [|congruence].
  now rewrite app_nil_r.
Qed.

Lemma appended_present w w' name bytes n :
  appended w w' name bytes -> present w n -> present w' n.
Proof.
  intros (_ & _ & Ho & _ & Hs) Hp. unfold present in *.
  destruct (String.eqb n name) eqn:E.
  - apply String.eqb_eq in E. subst n. rewrite (Hs Hp). discriminate.
  - apply String.eqb_neq in E. now rewrite (Ho _ E).
Qed.

Lemma appended_content w w' name bytes :
  appended w w' name bytes -> present w name ->
  content w' name = content w name ++ bytes.
Proof.
  intros (_ & _ & _ & _ & Hs) Hp. unfold content at 1. now rewrite (Hs Hp).
Qed.

Lemma appended_trans w w1 w2 name a b :
  appended w w1 name a -> appended w1 w2 name b ->
  appended w w2 name (a ++ b).
Proof.
  intros H1 H2.
  pose proof (appended_present _ _ _ _ name H1) as Hp.
  pose proof (appended_content _ _ _ _ H1) as Hc.
  destruct H1 as (R1 & M1 & O1 & N1 & S1), H2 as (R2 & M2 & O2 & N2 & S2).
  unfold appended. repeat split.
  - congruence.
  - congruence.
  - intros n Hn. rewrite (O2 _ Hn). auto.
  - auto.
  - intros P. rewrite (S2 (Hp P)), (Hc P), app_assoc. reflexivity.
Qed.

(** A write that reports no error has appended all of [p]. *)
Lemma file_Write_ok w f p w' :
  file_Write w f p = (w', None) ->
  closed f = false /\ appended w w' (Name f) p.
Proof.
  unfold file_Write.
  destruct (closed f); [discriminate|].
  destruct (refuses w SysWrite); [discriminate|].
  intros H. injection H as <-. split; [reflexivity|].
  unfold appended, set_files; simpl. repeat split.
  - apply map_fst_store.
  - intros n Hn. now apply lookup_store_other.
  - intros n Hn. now apply lookup_store_none.
  - intros P. now apply lookup_store_same.
Qed.

Lemma file_Write_err w f p w' e :
  file_Write w f p = (w', Some e) -> w' = w.
Proof.
  unfold file_Write.
  destruct (closed f); [congruence|].
  destruct (refuses w SysWrite); congruence.
Qed.

Lemma file_Write_healthy w f p :
  closed f = false -> refuses w SysWrite = false ->
  exists w', file_Write w f p = (w', None).
Proof.
  intros Hc Hr. unfold file_Write. rewrite Hc, Hr. eauto.
Qed.

(* ================================================================= *)
(** ** The buffered writer *)

Lemma len_nonneg {A} (l : list A) : 0 <= len l.
Proof. unfold len. lia. Qed.

Lemma len_app {A} (l1 l2 : list A) : len (l1 ++ l2) = len l1 + len l2.
Proof. unfold len. rewrite length_app. lia. Qed.

Lemma len_cons {A} (x : A) (l : list A) : len (x :: l) = 1 + len l.
Proof. unfold len. cbn [List.length]. lia. Qed.

Lemma len_zero_nil {A} (l : list A) : len l = 0 -> l = [].
Proof. destruct l; [reflexivity|]. unfold len. simpl. lia. Qed.

(** A flush that reports no error has written the whole buffer. *)
Lemma bufio_Flush_ok f b w b' w' :
  bufio_Flush f b w = (b', w', None) ->
  werr b = None /\ b' = NewWriter /\ appended w w' (Name f) (buf b).
Proof.
  unfold bufio_Flush.
  destruct (werr b) eqn:Eb; [discriminate|].
  destruct (Buffered b =? 0) eqn:E0.
  - intros H. injection H as <- <-.
    apply Z.eqb_eq in E0. apply len_zero_nil in E0.
    repeat split; auto.
    + destruct b as [bb be]; simpl in *. subst. reflexivity.
    + rewrite E0. apply appended_refl.
  - destruct (file_Write w f (buf b)) as [w1 [e|]] eqn:EW; [discriminate|].
    intros H. injection H as <- <-.
    apply file_Write_ok in EW. tauto.
Qed.

(** A failed flush keeps the buffer and the files. *)
Lemma bufio_Flush_err f b w b' w' e :
  bufio_Flush f b w = (b', w', Some e) ->
  buf b' = buf b /\ w' = w /\ werr b' = Some e.
Proof.
  unfold bufio_Flush.
  destruct (werr b) eqn:Eb.
  - intros H. injection H as <- <- <-. auto.
  - destruct (Buffered b =? 0); [discriminate|].
    destruct (file_Write w f (buf b)) as [w1 [e1|]] eqn:EW; [|discriminate].
    intros H. injection H as <- <- <-.
    apply file_Write_err in EW. auto.
Qed.

Lemma bufio_Flush_healthy f b w :
  closed f = false -> refuses w SysWrite = false -> werr b = None ->
  exists w', bufio_Flush f b w = (NewWriter, w', None).
Proof.
  intros Hc Hr He. unfold bufio_Flush. rewrite He.
  destruct (Buffered b =? 0) eqn:E0.
  - apply Z.eqb_eq in E0. apply len_zero_nil in E0.
    destruct b as [bb be]; simpl in *. subst. eauto.
  - destruct (file_Write_healthy w f (buf b) Hc Hr) as [w' ->]. eauto.
Qed.

(** Once the sticky error is set the loop of [Write] does nothing. *)
Lemma bufio_Write_loop_stuck fuel f b w p e :
  werr b = Some e -> bufio_Write_loop fuel f b w p = (b, w, p).
Proof.
  intros He. destruct fuel; simpl; [reflexivity|].
  rewrite He. simpl. rewrite andb_false_r. reflexivity.
Qed.

(** The loop accounts for every byte: what has left towards the file,
    what is buffered and what is still to be copied make up the old
    buffer followed by [p]. *)
Lemma bufio_Write_loop_ok fuel f : forall b w p b1 w1 p1,
  bufio_Write_loop fuel f b w p = (b1, w1, p1) ->
  werr b1 = None ->
  werr b = None /\
  exists spill, appended w w1 (Name f) spill /\
                spill ++ buf b1 ++ p1 = buf b ++ p.
Proof.
  induction fuel as [|fuel IH]; intros b w p b1 w1 p1 H Hok.
  - simpl in H. injection H as <- <- <-. split; [exact Hok|].
    exists []. split; [apply appended_refl|reflexivity].
  - simpl in H.
    destruct ((len p >? Available b) && is_nil (werr b)) eqn:Ec.
    + apply andb_prop in Ec. destruct Ec as [_ En].
      assert (Hb : werr b = None) by (destruct (werr b); [discriminate|auto]).
      split; [exact Hb|].
      destruct (Buffered b =? 0) eqn:E0.
      * apply Z.eqb_eq in E0. apply len_zero_nil in E0.
        destruct (file_Write w f p) as [w' [e|]] eqn:EW.
        -- rewrite (bufio_Write_loop_stuck _ _ _ _ _ e) in H by reflexivity.
           injection H as <- <- <-. simpl in Hok. discriminate.
        -- apply file_Write_ok in EW. destruct EW as [_ EW].
           apply IH in H; [|exact Hok].
           destruct H as [_ (sp & Ha & Heq)].
           exists (p ++ sp). split.
           ++ eapply appended_trans; eauto.
           ++ rewrite E0 in *. rewrite <- app_assoc, Heq.
              simpl. now rewrite app_nil_r.
      * destruct (bufio_Flush f
                    {| buf := buf b ++ firstn (Z.to_nat (Available b)) p;
                       werr := werr b |} w) as [[b2 w2] e2] eqn:EF.
        destruct e2 as [e2|].
        -- apply bufio_Flush_err in EF. destruct EF as (_ & _ & E2).
           rewrite (bufio_Write_loop_stuck _ _ _ _ _ e2) in H by exact E2.
           injection H as <- <- <-. congruence.
        -- apply bufio_Flush_ok in EF. destruct EF as (_ & -> & Ha).
           simpl in Ha.
           apply IH in H; [|exact Hok].
           destruct H as [_ (sp & Ha2 & Heq)].
           exists ((buf b ++ firstn (Z.to_nat (Available b)) p) ++ sp).
           split.
           ++ eapply appended_trans; eauto.
           ++ rewrite <- !app_assoc, Heq. simpl.
              now rewrite firstn_skipn.
    + injection H as <- <- <-. split; [exact Hok|].
      exists []. split; [apply appended_refl|reflexivity].
Qed.

(** One turn of the loop. *)
Lemma bufio_Write_loop_S fuel f b w p :
  bufio_Write_loop (S fuel) f b w p =
  if (len p >? Available b) && is_nil (werr b) then
    if Buffered b =? 0 then
      match file_Write w f p with
      | (w', Some e) =>
          bufio_Write_loop fuel f {| buf := buf b; werr := Some e |} w' p
      | (w', None) => bufio_Write_loop fuel f b w' []
      end
    else
      let n := Z.to_nat (Available b) in
      let b1 := {| buf := buf b ++ firstn n p; werr := werr b |} in
      let '(b2, w2, _) := bufio_Flush f b1 w in
      bufio_Write_loop fuel f b2 w2 (skipn n p)
  else (b, w, p).
Proof. reflexivity. Qed.

(** With an empty buffer two turns are enough. *)
Lemma bufio_Write_loop_exit_empty k f b w p b1 w1 p1 :
  buf b = [] ->
  bufio_Write_loop (S (S k)) f b w p = (b1, w1, p1) ->
  (len p1 >? Available b1) && is_nil (werr b1) = false.
Proof.
  intros Hb H. rewrite bufio_Write_loop_S in H.
  destruct ((len p >? Available b) && is_nil (werr b)) eqn:Ec.
  - unfold Buffered in H. rewrite Hb in H. change (len [] =? 0) with true in H.
    cbv iota in H.
    destruct (file_Write w f p) as [w' [e|]] eqn:EW.
    + rewrite (bufio_Write_loop_stuck _ _ _ _ _ e) in H by reflexivity.
      injection H as <- <- <-. simpl. apply andb_false_r.
    + rewrite bufio_Write_loop_S in H.
      unfold Available in H. rewrite Hb in H.
      change (len [] >? defaultBufSize - len []) with false in H.
      cbv iota in H. simpl in H.
      injection H as <- <- <-. unfold Available. rewrite Hb. reflexivity.
  - injection H as <- <- <-. exact Ec.
Qed.

(** Three turns are enough: on leaving [bufio_Write_loop 3] the loop
    condition of [Write] is false, so the budget was not what stopped
    it. *)
Lemma bufio_Write_loop_exit f b w p b1 w1 p1 :
  bufio_Write_loop 3 f b w p = (b1, w1, p1) ->
  (len p1 >? Available b1) && is_nil (werr b1) = false.
Proof.
  intros H. rewrite bufio_Write_loop_S in H.
  destruct ((len p >? Available b) && is_nil (werr b)) eqn:Ec.
  - destruct (Buffered b =? 0) eqn:E0.
    + apply Z.eqb_eq in E0. apply len_zero_nil in E0.
      apply (bufio_Write_loop_exit_empty 1%nat f b w p b1 w1 p1); auto.
      rewrite bufio_Write_loop_S, Ec.
      unfold Buffered. rewrite E0. unfold Buffered in H. rewrite E0 in H.
      exact H.
    + cbv zeta in H.
      destruct (bufio_Flush f
                  {| buf := buf b ++ firstn (Z.to_nat (Available b)) p;
                     werr := werr b |} w) as [[b2 w2] e2] eqn:EF.
      destruct e2 as [e2|].
      * apply bufio_Flush_err in EF. destruct EF as (_ & _ & E2).
        rewrite (bufio_Write_loop_stuck _ _ _ _ _ e2) in H by exact E2.
        injection H as <- <- <-. rewrite E2. apply andb_false_r.
      * apply bufio_Flush_ok in EF. destruct EF as (_ & -> & _).
        eapply (bufio_Write_loop_exit_empty 0%nat); [|exact H]. reflexivity.
  - injection H as <- <- <-. exact Ec.
Qed.

(** A [Write] that reports no error: the bytes that reached the file
    ([spill]) followed by the new buffer are the old buffer followed by
    [p]. *)
Lemma bufio_Write_ok f b w p b' w' :
  bufio_Write f b w p = (b', w', None) ->
  werr b = None /\ werr b' = None /\
  exists spill, appended w w' (Name f) spill /\
                spill ++ buf b' = buf b ++ p.
Proof.
  unfold bufio_Write.
  destruct (bufio_Write_loop 3 f b w p) as [[b1 w1] p1] eqn:EL.
  destruct (werr b1) eqn:E1; [discriminate|].
  intros H. injection H as <- <-.
  apply bufio_Write_loop_ok in EL; [|exact E1].
  destruct EL as [Hb (sp & Ha & Heq)].
  repeat split; auto. exists sp. split; [exact Ha|exact Heq].
Qed.

(** When [p] fits in the free part of the buffer nothing reaches the file. *)
Lemma bufio_Write_fits f b w p :
  werr b = None -> len p <= Available b ->
  bufio_Write f b w p = ({| buf := buf b ++ p; werr := None |}, w, None).
Proof.
  intros He Hfit. unfold bufio_Write. cbn [bufio_Write_loop].
  replace (len p >? Available b) with false
    by (symmetry; rewrite Z.gtb_ltb; apply Z.ltb_ge; lia).
  simpl. rewrite He. reflexivity.
Qed.

Lemma bufio_Write_loop_healthy fuel f : forall b w p,
  closed f = false -> refuses w SysWrite = false -> werr b = None ->
  let '(b1, w1, _) := bufio_Write_loop fuel f b w p in
  werr b1 = None /\ refuses w1 SysWrite = false.
Proof.
  induction fuel as [|fuel IH]; intros b w p Hc Hr He; simpl; [auto|].
  destruct ((len p >? Available b) && is_nil (werr b)); [|auto].
  destruct (Buffered b =? 0).
  - destruct (file_Write_healthy w f p Hc Hr) as [w' EW]. rewrite EW.
    apply IH; auto.
    apply file_Write_ok in EW. destruct EW as [_ (R & _)]. now rewrite R.
  - destruct (bufio_Flush_healthy f
                {| buf := buf b ++ firstn (Z.to_nat (Available b)) p;
                   werr := werr b |} w Hc Hr He) as [w' EF].
    rewrite EF. apply IH; auto.
    apply bufio_Flush_ok in EF. destruct EF as (_ & _ & (R & _)).
    now rewrite R.
Qed.

(** With an open file, a willing system and no earlier error, [Write]
    succeeds. *)
Lemma bufio_Write_healthy f b w p :
  closed f = false -> refuses w SysWrite = false -> werr b = None ->
  exists b' w', bufio_Write f b w p = (b', w', None).
Proof.
  intros Hc Hr He. unfold bufio_Write.
  pose proof (bufio_Write_loop_healthy 3 f b w p Hc Hr He) as H.
  destruct (bufio_Write_loop 3 f b w p) as [[b1 w1] p1].
  destruct H as [-> _]. eauto.
Qed.

(* ================================================================= *)
(** ** [Flush] *)

Lemma Flush_ok wal w wal' w' :
  Flush wal w = (wal', w', None) ->
  werr (bufferWriter wal) = None /\
  wal' = set_writer wal NewWriter /\
  appended w w' (Name (currentSegment wal)) (buf (bufferWriter wal)).
Proof.
  unfold Flush.
  destruct (bufio_Flush (currentSegment wal) (bufferWriter wal) w)
    as [[b w1] [e|]] eqn:EF; [discriminate|].
  apply bufio_Flush_ok in EF. destruct EF as (He & -> & Ha).
  destruct (shouldFsync wal).
  - destruct (file_Sync w1 (currentSegment wal)); [discriminate|].
    intros H. injection H as <- <-. auto.
  - intros H. injection H as <- <-. auto.
Qed.

(** A failed [Flush] leaves the sequence number alone; the buffer is
    either as it was (the write failed) or drained (the sync failed). *)
Lemma Flush_err wal w wal' w' e :
  Flush wal w = (wal', w', Some e) ->
  lastSequenceNumber wal' = lastSequenceNumber wal /\
  (buf (bufferWriter wal') = buf (bufferWriter wal) \/
   buf (bufferWriter wal') = []).
Proof.
  unfold Flush.
  destruct (bufio_Flush (currentSegment wal) (bufferWriter wal) w)
    as [[b w1] [e1|]] eqn:EF.
  - intros H. injection H as <- <- <-.
    apply bufio_Flush_err in EF. destruct EF as (Hb & _ & _).
    split; [reflexivity|left; exact Hb].
  - apply bufio_Flush_ok in EF. destruct EF as (_ & -> & _).
    destruct (shouldFsync wal); [|discriminate].
    destruct (file_Sync w1 (currentSegment wal)); [|discriminate].
    intros H. injection H as <- <- <-.
    split; [reflexivity|right; reflexivity].
Qed.

Lemma appended_willing w w' name bytes :
  appended w w' name bytes -> willing w -> willing w'.
Proof.
  intros (R & _) H s. rewrite R. apply H.
Qed.

Lemma Flush_healthy wal w :
  closed (currentSegment wal) = false -> willing w ->
  werr (bufferWriter wal) = None ->
  exists w', Flush wal w = (set_writer wal NewWriter, w', None).
Proof.
  intros Hc Hw He. unfold Flush.
  destruct (bufio_Flush_healthy (currentSegment wal) (bufferWriter wal) w
              Hc (Hw SysWrite) He) as [w' EF].
  rewrite EF.
  pose proof EF as EF'. apply bufio_Flush_ok in EF'.
  destruct EF' as (_ & _ & (R & _)).
  unfold file_Sync. rewrite Hc, R, (Hw SysSync).
  destruct (shouldFsync wal); eauto.
Qed.

(* ================================================================= *)
(** ** Rotation *)

Lemma Flush_shape wal w :
  exists b, fst (fst (Flush wal w)) = set_writer wal b.
Proof.
  unfold Flush.
  destruct (bufio_Flush (currentSegment wal) (bufferWriter wal) w)
    as [[b w1] [e|]]; [simpl; eauto|].
  destruct (shouldFsync wal); [|simpl; eauto].
  destruct (file_Sync w1 (currentSegment wal)); simpl; eauto.
Qed.

Lemma lookup_app name fs gs :
  lookup name (fs ++ gs) =
  match lookup name fs with
  | Some c => Some c
  | None => lookup name gs
  end.
Proof.
  induction fs as [|[n c] fs IH]; simpl; [reflexivity|].
  destruct (String.eqb n name); auto.
Qed.

Lemma lookup_create name fs : lookup name (create name fs) = Some [].
Proof.
  unfold create. destruct (lookup name fs) eqn:E.
  - apply lookup_store_same. congruence.
  - rewrite lookup_app, E. simpl. now rewrite String.eqb_refl.
Qed.

(** [changeLogSegment] never touches the sequence number, and leaves the
    buffer as it was or drained. *)
Lemma changeLogSegment_keeps wal w :
  let '(wal', _, _) := changeLogSegment wal w in
  lastSequenceNumber wal' = lastSequenceNumber wal /\
  maxSegmentSize wal' = maxSegmentSize wal /\
  maxSegmentsNumber wal' = maxSegmentsNumber wal /\
  shouldFsync wal' = shouldFsync wal /\
  (buf (bufferWriter wal') = buf (bufferWriter wal) \/
   buf (bufferWriter wal') = []).
Proof.
  unfold changeLogSegment.
  destruct (Flush wal w) as [[wal1 w1] [e|]] eqn:EF.
  - pose proof (Flush_shape wal w) as [b Hb]. rewrite EF in Hb. simpl in Hb.
    apply Flush_err in EF. subst wal1. simpl in *. tauto.
  - apply Flush_ok in EF. destruct EF as (_ & -> & _).
    destruct (file_Close w1 (currentSegment (set_writer wal NewWriter)))
      as [f [e|]]; [simpl; tauto|].
    match goal with |- context [if ?c then _ else _] => destruct c end.
    + destruct (deleteOldestSegment w1) as [w2 [e|]]; [simpl; tauto|].
      destruct (CreateSegmentFile w2 _) as [w3 [nf|e]]; simpl; tauto.
    + destruct (CreateSegmentFile w1 _) as [w3 [nf|e]]; simpl; tauto.
Qed.

Lemma changeLogSegmentIfNeeded_keeps wal w :
  let '(wal', _, _) := changeLogSegmentIfNeeded wal w in
  lastSequenceNumber wal' = lastSequenceNumber wal /\
  maxSegmentSize wal' = maxSegmentSize wal /\
  maxSegmentsNumber wal' = maxSegmentsNumber wal /\
  shouldFsync wal' = shouldFsync wal /\
  (buf (bufferWriter wal') = buf (bufferWriter wal) \/
   buf (bufferWriter wal') = []).
Proof.
  unfold changeLogSegmentIfNeeded.
  destruct (file_Stat_Size w (currentSegment wal)) as [size|e]; [|tauto].
  destruct (_ >=? _); [|tauto].
  apply changeLogSegment_keeps.
Qed.

(** When no rotation is due the check changes nothing. *)
Lemma changeLogSegmentIfNeeded_still wal w wal1 w1 :
  changeLogSegmentIfNeeded wal w = (wal1, w1, None) ->
  rotates wal w = false ->
  wal1 = wal /\ w1 = w /\ closed (currentSegment wal) = false.
Proof.
  unfold changeLogSegmentIfNeeded, rotates, file_Stat_Size.
  destruct (closed (currentSegment wal)); [discriminate|].
  destruct (refuses w SysStat); [discriminate|].
  intros H Hr. rewrite Hr in H. injection H as <- <-. auto.
Qed.

(** A successful rotation ends on a new, empty, open segment with an
    empty buffer. *)
Lemma changeLogSegment_fresh wal w wal1 w1 :
  changeLogSegment wal w = (wal1, w1, None) ->
  closed (currentSegment wal1) = false /\
  bufferWriter wal1 = NewWriter /\
  lookup (Name (currentSegment wal1)) (files w1) = Some [].
Proof.
  unfold changeLogSegment.
  destruct (Flush wal w) as [[wal0 w0] [e|]]; [discriminate|].
  destruct (file_Close w0 (currentSegment wal0)) as [f [e|]]; [discriminate|].
  match goal with |- context [if ?c then _ else _] => destruct c end.
  - destruct (deleteOldestSegment w0) as [w2 [e|]]; [discriminate|].
    unfold CreateSegmentFile. destruct (refuses w2 SysCreate); [discriminate|].
    intros H. injection H as <- <-. simpl.
    repeat split. apply lookup_create.
  - unfold CreateSegmentFile. destruct (refuses w0 SysCreate); [discriminate|].
    intros H. injection H as <- <-. simpl.
    repeat split. apply lookup_create.
Qed.

(* ================================================================= *)
(** ** The append path *)

Section AppendFacts.
Context {codec : EntryCodec}.

Lemma writeEntryToBuffer_ok wal w entry wal' w' :
  writeEntryToBuffer wal w entry = (wal', w', None) ->
  werr (bufferWriter wal) = None /\
  werr (bufferWriter wal') = None /\
  (exists b, wal' = set_writer wal b) /\
  exists spill,
    appended w w' (Name (currentSegment wal)) spill /\
    spill ++ buf (bufferWriter wal') = buf (bufferWriter wal) ++ frame entry.
Proof.
  unfold writeEntryToBuffer.
  destruct (bufio_Write (currentSegment wal) (bufferWriter wal) w _)
    as [[b1 w1] [e|]] eqn:E1; [discriminate|].
  destruct (bufio_Write (currentSegment wal) b1 w1 (MustMarshal entry))
    as [[b2 w2] e2] eqn:E2.
  intros H. injection H as <- <- ->.
  apply bufio_Write_ok in E1. destruct E1 as (H0 & H1 & s1 & A1 & Q1).
  apply bufio_Write_ok in E2. destruct E2 as (_ & H2 & s2 & A2 & Q2).
  simpl. repeat split; eauto.
  exists (s1 ++ s2). split.
  - eapply appended_trans; eauto.
  - unfold frame. rewrite <- app_assoc, Q2, app_assoc, Q1, app_assoc.
    reflexivity.
Qed.

(** A frame that fits into an empty buffer stays in memory. *)
Lemma writeEntryToBuffer_fits wal w entry :
  bufferWriter wal = NewWriter ->
  len (frame entry) <= defaultBufSize ->
  writeEntryToBuffer wal w entry =
  (set_writer wal {| buf := frame entry; werr := None |}, w, None).
Proof.
  intros Hb Hfit. unfold writeEntryToBuffer. rewrite Hb.
  unfold frame in *. rewrite len_app in Hfit.
  set (hdr := le_encode 4 (int32 (len (MustMarshal entry)))) in *.
  pose proof (len_nonneg (MustMarshal entry)) as Hm.
  pose proof (len_nonneg hdr) as Hl.
  rewrite bufio_Write_fits; [|reflexivity|].
  2:{ unfold Available, NewWriter. cbn [buf].
      change (len (@nil byte)) with 0. lia. }
  rewrite bufio_Write_fits; [reflexivity|reflexivity|].
  unfold Available, NewWriter. cbn [buf app]. lia.
Qed.

Lemma writeEntryToBuffer_healthy wal w entry :
  closed (currentSegment wal) = false -> willing w ->
  werr (bufferWriter wal) = None ->
  exists wal' w', writeEntryToBuffer wal w entry = (wal', w', None).
Proof.
  intros Hc Hw He. unfold writeEntryToBuffer.
  destruct (bufio_Write_healthy (currentSegment wal) (bufferWriter wal) w
              (le_encode 4 (int32 (len (MustMarshal entry))))
              Hc (Hw SysWrite) He) as (b1 & w1 & E1).
  rewrite E1.
  pose proof E1 as E1'. apply bufio_Write_ok in E1'.
  destruct E1' as (_ & H1 & s1 & A1 & _).
  pose proof (appended_willing _ _ _ _ A1 Hw) as Hw1.
  destruct (bufio_Write_healthy (currentSegment wal) b1 w1
              (MustMarshal entry) Hc (Hw1 SysWrite) H1) as (b2 & w2 & E2).
  rewrite E2. eauto.
Qed.

(** Every successful [writeEntry] advances the sequence number by one
    (modulo 2^64). *)
Lemma writeEntry_lsn wal w data c wal' w' :
  writeEntry wal w data c = (wal', w', None) ->
  lastSequenceNumber wal' = uint64 (lastSequenceNumber wal + 1).
Proof.
  unfold writeEntry.
  pose proof (changeLogSegmentIfNeeded_keeps wal w) as K.
  destruct (changeLogSegmentIfNeeded wal w) as [[wal1 w1] [e|]];
    [discriminate|].
  destruct K as (K & _).
  destruct c.
  - destruct (Flush _ w1) as [[wal3 w3] [e|]] eqn:EF; [discriminate|].
    apply Flush_ok in EF. destruct EF as (_ & -> & _).
    intros H. apply writeEntryToBuffer_ok in H.
    destruct H as (_ & _ & (b & ->) & _). simpl. now rewrite K.
  - intros H. apply writeEntryToBuffer_ok in H.
    destruct H as (_ & _ & (b & ->) & _). simpl. now rewrite K.
Qed.

End AppendFacts.

(* ================================================================= *)
(** ** Scanning a segment *)

Lemma ReadFull_exact w data rest :
  refuses w SysRead = false ->
  ReadFull w (data ++ rest) (len data) = (rest, Ok data).
Proof.
  intros Hr. unfold ReadFull.
  destruct (len data =? 0) eqn:E0.
  - apply Z.eqb_eq in E0. apply len_zero_nil in E0. subst. reflexivity.
  - rewrite Hr. apply Z.eqb_neq in E0.
    destruct data as [|d data]; [exfalso; apply E0; reflexivity|].
    cbn [app].
    change (d :: data ++ rest) with ((d :: data) ++ rest).
    rewrite len_app.
    pose proof (len_nonneg rest).
    replace (len (d :: data) + len rest <? len (d :: data)) with false
      by (symmetry; apply Z.ltb_ge; lia).
    unfold len. rewrite Nat2Z.id.
    rewrite (skipn_exact _ (d :: data)) by reflexivity.
    rewrite (firstn_exact _ (d :: data)) by reflexivity.
    reflexivity.
Qed.

(** Reading never lengthens the unread remainder. *)
Lemma ReadFull_shrinks w rest n rest' r :
  ReadFull w rest n = (rest', r) ->
  (List.length rest' <= List.length rest)%nat.
Proof.
  unfold ReadFull.
  destruct (n =? 0); [intros H; injection H as <- _; lia|].
  destruct (refuses w SysRead); [intros H; injection H as <- _; lia|].
  destruct rest as [|x rest]; [intros H; injection H as <- _; lia|].
  destruct (len (x :: rest) <? n).
  - intros H; injection H as <- _. simpl. lia.
  - intros H; injection H as <- _. rewrite length_skipn. lia.
Qed.

Lemma ReadFull_consumes w rest n rest' data :
  ReadFull w rest n = (rest', Ok data) -> 0 <= n ->
  (List.length rest' + Z.to_nat n = List.length rest)%nat.
Proof.
  unfold ReadFull. intros H Hn.
  destruct (n =? 0) eqn:E0.
  - apply Z.eqb_eq in E0. subst n. injection H as <- _. simpl. lia.
  - destruct (refuses w SysRead); [discriminate|].
    destruct rest as [|x rest]; [discriminate|].
    destruct (len (x :: rest) <? n) eqn:E; [discriminate|].
    injection H as <- _.
    apply Z.ltb_ge in E. unfold len in E.
    rewrite length_skipn. lia.
Qed.

Lemma binary_Read_ptr_shrinks w rest rest1 size :
  binary_Read_ptr w rest = (rest1, Ok size) ->
  (List.length rest1 < List.length rest)%nat.
Proof.
  unfold binary_Read_ptr.
  destruct (ReadFull w rest 4) as [r1 [bs|e]] eqn:E; [|discriminate].
  intros H. injection H as <- _.
  apply ReadFull_consumes in E; lia.
Qed.

Lemma binary_Read_ptr_frame w n rest :
  refuses w SysRead = false -> 0 <= n < 2 ^ 31 ->
  binary_Read_ptr w (le_encode 4 (int32 n) ++ rest) = (rest, Ok n).
Proof.
  intros Hr Hn. unfold binary_Read_ptr.
  replace 4 with (len (le_encode 4 (int32 n)))
    by (unfold len; now rewrite le_encode_length).
  rewrite ReadFull_exact by exact Hr.
  rewrite (int32_small n) by exact Hn.
  rewrite le_decode_encode by (simpl; lia).
  now rewrite int32_small.
Qed.

Section ScanFacts.
Context {codec : EntryCodec}.
Hypothesis codec_ok : codec_roundtrip codec.

Lemma checkpoint_test e :
  negb (is_nil (IsCheckpoint e)) && GetIsCheckpoint e = GetIsCheckpoint e.
Proof.
  unfold GetIsCheckpoint. destruct (IsCheckpoint e) as [[|]|]; reflexivity.
Qed.

Lemma UnmarshalAndVerifyEntry_valid e :
  valid_entry e -> UnmarshalAndVerifyEntry (MustMarshal e) = Done (Ok e).
Proof.
  intros (Hr & Hc & _). unfold UnmarshalAndVerifyEntry.
  rewrite (codec_ok e Hr), Hc. reflexivity.
Qed.

(** Scanning the frames of valid entries: one turn of the loop per entry. *)
Lemma readAll_loop_frames w b es : forall fuel rest acc cp,
  refuses w SysRead = false ->
  Forall valid_entry es ->
  readAll_loop (List.length es + fuel) w (frames es ++ rest) b acc cp =
  readAll_loop fuel w rest b (fst (scan b (acc, cp) es))
    (snd (scan b (acc, cp) es)).
Proof.
  induction es as [|e es IH]; intros fuel rest acc cp Hr Hv.
  - reflexivity.
  - inversion Hv as [|? ? He Hes]; subst.
    pose proof He as (_ & _ & Hlen).
    pose proof (len_nonneg (MustMarshal e)) as Hnn.
    cbn [List.length Nat.add frames map List.concat].
    change (List.concat (map frame es)) with (frames es).
    cbn [readAll_loop]. unfold frame at 1.
    rewrite <- !app_assoc.
    rewrite binary_Read_ptr_frame by (auto; lia).
    replace (len (MustMarshal e) <? 0) with false
      by (symmetry; apply Z.ltb_ge; lia).
    rewrite ReadFull_exact by exact Hr.
    rewrite (UnmarshalAndVerifyEntry_valid e He).
    rewrite <- andb_assoc, (andb_assoc (negb _)), checkpoint_test.
    unfold scan. cbn [fold_left]. unfold scan_step at 2 4. cbn [fst snd].
    destruct (GetIsCheckpoint e && b); apply IH; auto.
Qed.

(** More budget never changes a result. *)
Lemma readAll_loop_mono w b : forall fuel k rest acc cp r,
  readAll_loop fuel w rest b acc cp = r -> r <> OutOfFuel ->
  readAll_loop (fuel + k) w rest b acc cp = r.
Proof.
  induction fuel as [|fuel IH]; intros k rest acc cp r H Hr.
  - simpl in H. congruence.
  - cbn [Nat.add]. cbn [readAll_loop] in *.
    destruct (binary_Read_ptr w rest) as [rest1 [size|e]]; [|exact H].
    destruct (size <? 0); [exact H|].
    destruct (ReadFull w rest1 size) as [rest2 [data|e]]; [|exact H].
    destruct (UnmarshalAndVerifyEntry data) as [[entry|e]| |]; try exact H.
    destruct (negb (is_nil (IsCheckpoint entry)) && GetIsCheckpoint entry && b);
      apply IH; auto.
Qed.

(** The budget of [readAllEntriesFromFile] is never used up. *)
Lemma readAll_loop_total w b : forall fuel rest acc cp,
  (List.length rest < fuel)%nat ->
  readAll_loop fuel w rest b acc cp <> OutOfFuel.
Proof.
  induction fuel as [|fuel IH]; intros rest acc cp Hf; [lia|].
  cbn [readAll_loop].
  destruct (binary_Read_ptr w rest) as [rest1 [size|e]] eqn:E1.
  - apply binary_Read_ptr_shrinks in E1.
    destruct (size <? 0); [discriminate|].
    destruct (ReadFull w rest1 size) as [rest2 [data|e]] eqn:E2;
      [|discriminate].
    apply ReadFull_shrinks in E2.
    unfold UnmarshalAndVerifyEntry.
    destruct (MustUnmarshal data) as [entry|]; [|discriminate].
    destruct (negb (isValidCRC entry)); [discriminate|].
    destruct (negb (is_nil (IsCheckpoint entry)) && GetIsCheckpoint entry && b);
      apply IH; lia.
  - destruct e; discriminate.
Qed.

Lemma frames_length es : (List.length es <= List.length (frames es))%nat.
Proof.
  induction es as [|e es IH]; [simpl; lia|].
  unfold frames in *. cbn [map List.concat List.length].
  rewrite length_app. unfold frame at 1.
  rewrite length_app, le_encode_length. lia.
Qed.

Lemma frames_app es fs : frames (es ++ fs) = frames es ++ frames fs.
Proof. unfold frames. now rewrite map_app, concat_app. Qed.

(** A file made of the frames of [es] followed by [rest]: the scan
    decodes [es] and goes on with [rest]. *)
Lemma readAllEntriesFromFile_prefix w b es rest :
  willing w -> Forall valid_entry es ->
  readAllEntriesFromFile w (frames es ++ rest) b =
  readAll_loop (S (List.length rest)) w rest b
    (fst (scan b ([], 0) es)) (snd (scan b ([], 0) es)).
Proof.
  intros Hw Hv. unfold readAllEntriesFromFile. rewrite (Hw SysSeek).
  pose proof (frames_length es) as Hl.
  rewrite length_app.
  replace (S (List.length (frames es) + List.length rest))
    with (List.length es
          + (S (List.length rest) + (List.length (frames es) - List.length es)))%nat
    by lia.
  rewrite readAll_loop_frames by auto.
  apply readAll_loop_mono; [reflexivity|].
  apply readAll_loop_total. lia.
Qed.

(** A segment that ends at a frame boundary is read in full. *)
Lemma readAllEntriesFromFile_frames w b es :
  willing w -> Forall valid_entry es ->
  readAllEntriesFromFile w (frames es) b =
  Done (fst (scan b ([], 0) es), snd (scan b ([], 0) es), None).
Proof.
  intros Hw Hv.
  rewrite <- (app_nil_r (frames es)).
  rewrite readAllEntriesFromFile_prefix by auto.
  cbn [readAll_loop List.length]. unfold binary_Read_ptr, ReadFull.
  simpl (4 =? 0). rewrite (Hw SysRead). reflexivity.
Qed.

End ScanFacts.

Section ScanMeaning.
Context {codec : EntryCodec}.

(** Without filtering the scan accumulates everything. *)
Lemma scan_unfiltered es : forall st,
  scan false st es = (fst st ++ es, snd st).
Proof.
  induction es as [|e es IH]; intros [acc cp]; simpl.
  - now rewrite app_nil_r.
  - unfold scan in *. cbn [fold_left]. unfold scan_step at 2.
    rewrite andb_false_r. rewrite IH. simpl. now rewrite <- app_assoc.
Qed.

(** With filtering the scan keeps what follows the last checkpoint, that
    checkpoint included, and tracks its sequence number; with no
    checkpoint it keeps everything and tracks nothing. *)
Lemma scan_filtered es : forall st,
  scan true st es =
  match from_last_checkpoint es with
  | Some l => (l, head_lsn l)
  | None => (fst st ++ es, snd st)
  end.
Proof.
  induction es as [|e es IH]; intros [acc cp]; simpl.
  - now rewrite app_nil_r.
  - unfold scan in *. cbn [fold_left]. unfold scan_step at 2.
    rewrite andb_true_r. rewrite IH.
    destruct (from_last_checkpoint es) as [l|]; [reflexivity|].
    destruct (GetIsCheckpoint e); simpl; [reflexivity|].
    now rewrite <- app_assoc.
Qed.

(** [from_last_checkpoint] finds the last checkpoint record. *)
Lemma from_last_checkpoint_some es l :
  from_last_checkpoint es = Some l ->
  exists pre c post,
    es = pre ++ c :: post /\ l = c :: post /\
    GetIsCheckpoint c = true /\
    Forall (fun e => GetIsCheckpoint e = false) post.
Proof.
  revert l. induction es as [|e es IH]; intros l H; simpl in H;
    [discriminate|].
  destruct (from_last_checkpoint es) as [l'|] eqn:E.
  - injection H as <-. destruct (IH l' eq_refl) as (pre & c & post & -> & ? & ? & ?).
    exists (e :: pre), c, post. auto.
  - destruct (GetIsCheckpoint e) eqn:Ec; [|discriminate].
    injection H as <-. exists [], e, es. repeat split; auto.
    clear IH. induction es as [|x es IHes]; [constructor|].
    simpl in E. destruct (from_last_checkpoint es); [discriminate|].
    destruct (GetIsCheckpoint x) eqn:Ex; [discriminate|].
    constructor; auto.
Qed.

Lemma from_last_checkpoint_none es :
  from_last_checkpoint es = None <->
  Forall (fun e => GetIsCheckpoint e = false) es.
Proof.
  induction es as [|e es IH]; simpl; [split; [constructor|reflexivity]|].
  destruct (from_last_checkpoint es) as [l|].
  - split; [discriminate|]. intros H. inversion H; subst.
    destruct IH as [_ IH]. specialize (IH H3). discriminate.
  - destruct (GetIsCheckpoint e) eqn:Ec.
    + split; [discriminate|]. intros H. inversion H; congruence.
    + split; [|reflexivity]. intros _. constructor; [exact Ec|now apply IH].
Qed.

End ScanMeaning.

(* ================================================================= *)
(** ** The checksum *)

Lemma lxor_range a b n :
  0 <= n -> 0 <= a < 2 ^ n -> 0 <= b < 2 ^ n -> 0 <= Z.lxor a b < 2 ^ n.
Proof.
  intros Hn Ha Hb.
  assert (H0 : 0 <= Z.lxor a b) by (apply Z.lxor_nonneg; lia).
  split; [exact H0|].
  destruct (Z.eq_dec (Z.lxor a b) 0) as [->|Hne].
  - apply Z.pow_pos_nonneg; lia.
  - assert (Hpos : 0 < n).
    { destruct (Z.eq_dec n 0) as [->|]; [|lia].
      change (2 ^ 0) with 1 in *.
      assert (a = 0) by lia. assert (b = 0) by lia. subst.
      exfalso. apply Hne. reflexivity. }
    apply Z.log2_lt_pow2; [lia|].
    eapply Z.le_lt_trans; [apply Z.log2_lxor; lia|].
    apply Z.max_lub_lt.
    + destruct (Z.eq_dec a 0) as [->|]; [simpl; lia|].
      apply Z.log2_lt_pow2; lia.
    + destruct (Z.eq_dec b 0) as [->|]; [simpl; lia|].
      apply Z.log2_lt_pow2; lia.
Qed.

Lemma crc_step_range c : 0 <= c < 2 ^ 32 -> 0 <= crc_step c < 2 ^ 32.
Proof.
  intros Hc. unfold crc_step.
  assert (Hs : 0 <= Z.shiftr c 1 < 2 ^ 32).
  { rewrite Z.shiftr_div_pow2 by lia. change (2 ^ 1) with 2.
    change (2 ^ 32) with 4294967296 in *.
    split; [apply Z.div_pos; lia|].
    apply Z.div_lt_upper_bound; lia. }
  destruct (Z.testbit c 0); [|exact Hs].
  apply lxor_range; [lia|exact Hs|]. cbv. split; congruence.
Qed.

Lemma crc_byte_range c b : 0 <= c < 2 ^ 32 -> 0 <= crc_byte c b < 2 ^ 32.
Proof.
  intros Hc. unfold crc_byte.
  assert (H0 : 0 <= Z.lxor c (Z_of_byte b) < 2 ^ 32).
  { apply lxor_range; [lia|exact Hc|].
    pose proof (Z_of_byte_range b). lia. }
  do 8 apply crc_step_range. exact H0.
Qed.

(** The checksum is a 32-bit value. *)
Lemma ChecksumIEEE_range data : 0 <= ChecksumIEEE data < 2 ^ 32.
Proof.
  unfold ChecksumIEEE.
  assert (H : forall c, 0 <= c < 2 ^ 32 ->
                        0 <= fold_left crc_byte data c < 2 ^ 32).
  { induction data as [|b data IH]; intros c Hc; simpl; [exact Hc|].
    apply IH, crc_byte_range, Hc. }
  apply lxor_range; [lia| |cbv; split; congruence].
  apply H. cbv; split; congruence.
Qed.

Section NewEntry.
Context {codec : EntryCodec}.

(** The entries [writeEntry] builds pass the checksum test. *)
Lemma newEntry_valid lsn data c :
  0 <= lsn < 2 ^ 64 ->
  len (MustMarshal (newEntry lsn data c)) < 2 ^ 31 ->
  valid_entry (newEntry lsn data c).
Proof.
  intros Hl Hm. unfold valid_entry. split; [|split]; [| |exact Hm].
  - unfold entry_in_range, newEntry. cbn [LogSequenceNumber CRC].
    split; [exact Hl|apply ChecksumIEEE_range].
  - unfold isValidCRC, newEntry. cbn [LogSequenceNumber CRC Data].
    apply Z.eqb_refl.
Qed.

End NewEntry.

(* ================================================================= *)
(** ** What a successful append leaves behind *)

Section AppendState.
Context {codec : EntryCodec}.

Lemma changeLogSegmentIfNeeded_rotated wal w wal1 w1 :
  changeLogSegmentIfNeeded wal w = (wal1, w1, None) ->
  rotates wal w = true ->
  changeLogSegment wal w = (wal1, w1, None).
Proof.
  unfold changeLogSegmentIfNeeded, rotates.
  destruct (file_Stat_Size w (currentSegment wal)) as [size|e];
    [|discriminate].
  intros H Hr. now rewrite Hr in H.
Qed.

(** The state in which [writeEntry] builds and appends the entry, after
    the rotation check. *)
Lemma writeEntry_after_check wal w data c wal' w' :
  writeEntry wal w data c = (wal', w', None) ->
  exists wal1 w1,
    changeLogSegmentIfNeeded wal w = (wal1, w1, None) /\
    lastSequenceNumber wal1 = lastSequenceNumber wal /\
    exists spill,
      appended w1 w' (Name (currentSegment wal1))
        ((if c then buf (bufferWriter wal1) else []) ++ spill) /\
      spill ++ buf (bufferWriter wal') =
        (if c then [] else buf (bufferWriter wal1))
        ++ frame (newEntry (lastSequenceNumber wal') data c) /\
      currentSegment wal' = currentSegment wal1 /\
      (c = true ->
       len (frame (newEntry (lastSequenceNumber wal') data c))
         <= defaultBufSize ->
       spill = []).
Proof.
  intros H. pose proof (writeEntry_lsn _ _ _ _ _ _ H) as Hlsn.
  unfold writeEntry in H.
  pose proof (changeLogSegmentIfNeeded_keeps wal w) as K.
  destruct (changeLogSegmentIfNeeded wal w) as [[wal1 w1] [e|]];
    [discriminate|].
  destruct K as (K & _).
  exists wal1, w1. split; [reflexivity|]. split; [exact K|].
  rewrite Hlsn. rewrite K in H.
  destruct c.
  - destruct (Flush _ w1) as [[wal3 w3] [e|]] eqn:EF; [discriminate|].
    apply Flush_ok in EF. destruct EF as (_ & -> & A1).
    cbn [set_lsn set_writer currentSegment bufferWriter lastSequenceNumber]
      in *.
    destruct (Z.le_gt_cases
                (len (frame (newEntry (uint64 (lastSequenceNumber wal + 1))
                               data true))) defaultBufSize) as [Hfit|Hbig].
    + rewrite writeEntryToBuffer_fits in H by (auto; reflexivity).
      injection H as <- <-. exists []. simpl. rewrite app_nil_r.
      split; [exact A1|]. split; [reflexivity|]. split; auto.
    + apply writeEntryToBuffer_ok in H.
      destruct H as (_ & _ & (b & ->) & sp & A2 & Q).
      exists sp. simpl in *.
      split; [eapply appended_trans; eauto|].
      split; [exact Q|]. split; [reflexivity|].
      intros _ Hfit. lia.
  - apply writeEntryToBuffer_ok in H.
    destruct H as (_ & _ & (b & ->) & sp & A2 & Q).
    exists sp. simpl in *.
    split; [exact A2|]. split; [exact Q|]. split; [reflexivity|].
    discriminate.
Qed.

(** The bytes of the current segment, on disk and buffered, after a
    successful [writeEntry]: the new frame follows what was there, or
    starts the new segment when the call rotated. *)
Lemma writeEntry_pending wal w data c wal' w' :
  writeEntry wal w data c = (wal', w', None) ->
  present w (Name (currentSegment wal)) ->
  present w' (Name (currentSegment wal')) /\
  pending wal' w' =
    (if rotates wal w then [] else pending wal w)
    ++ frame (newEntry (lastSequenceNumber wal') data c).
Proof.
  intros H Hp.
  destruct (writeEntry_after_check _ _ _ _ _ _ H)
    as (wal1 & w1 & Hc & _ & sp & A & Q & Hs & _).
  assert (P1 : present w1 (Name (currentSegment wal1)) /\
               pending wal1 w1 = if rotates wal w then [] else pending wal w).
  { destruct (rotates wal w) eqn:Er.
    - apply changeLogSegmentIfNeeded_rotated in Hc; [|exact Er].
      apply changeLogSegment_fresh in Hc. destruct Hc as (_ & Hb & Hl).
      unfold present, pending, content. rewrite Hl, Hb. split; [discriminate|].
      reflexivity.
    - apply changeLogSegmentIfNeeded_still in Hc; [|exact Er].
      destruct Hc as (-> & -> & _). auto. }
  destruct P1 as [P1 E1]. split.
  - rewrite Hs. eapply appended_present; eauto.
  - unfold pending at 1. rewrite Hs.
    rewrite (appended_content _ _ _ _ A P1).
    rewrite <- E1. unfold pending.
    destruct c; rewrite <- !app_assoc, Q; simpl; reflexivity.
Qed.

(** A healthy log that need not rotate accepts the entry and stays
    healthy on the same segment. *)
Lemma writeEntry_healthy wal w data c :
  healthy wal w -> len (pending wal w) < int64 (maxSegmentSize wal) ->
  exists wal' w',
    writeEntry wal w data c = (wal', w', None) /\
    healthy wal' w' /\
    currentSegment wal' = currentSegment wal /\
    maxSegmentSize wal' = maxSegmentSize wal /\
    rotates wal w = false.
Proof.
  intros (Hc & Hw & He & Hp) Hsz.
  assert (Hrot : rotates wal w = false).
  { unfold rotates, file_Stat_Size. rewrite Hc, (Hw SysStat).
    unfold pending in Hsz. rewrite len_app in Hsz. unfold Buffered.
    rewrite Z.geb_leb. apply Z.leb_gt. lia. }
  assert (Hchk : changeLogSegmentIfNeeded wal w = (wal, w, None)).
  { unfold changeLogSegmentIfNeeded. unfold rotates in Hrot.
    destruct (file_Stat_Size w (currentSegment wal)) as [size|e] eqn:ES.
    - now rewrite Hrot.
    - unfold file_Stat_Size in ES. rewrite Hc, (Hw SysStat) in ES.
      discriminate. }
  assert (Hex : exists wal' w', writeEntry wal w data c = (wal', w', None)).
  { unfold writeEntry. rewrite Hchk. destruct c.
    - destruct (Flush_healthy
                  (set_lsn wal (uint64 (lastSequenceNumber wal + 1))) w
                  Hc Hw He) as [w3 EF].
      rewrite EF.
      pose proof EF as EF'. apply Flush_ok in EF'.
      destruct EF' as (_ & _ & A).
      apply writeEntryToBuffer_healthy; auto.
      eapply appended_willing; eauto.
    - apply writeEntryToBuffer_healthy; auto. }
  destruct Hex as (wal' & w' & H). exists wal', w'.
  split; [exact H|].
  destruct (writeEntry_after_check _ _ _ _ _ _ H)
    as (wal1 & w1 & Hc1 & _ & sp & A & _ & Hs & _).
  rewrite Hchk in Hc1. injection Hc1 as <- <-.
  destruct (writeEntry_pending _ _ _ _ _ _ H Hp) as [Hp' _].
  assert (Hm : maxSegmentSize wal' = maxSegmentSize wal /\
               werr (bufferWriter wal') = None).
  { unfold writeEntry in H. rewrite Hchk in H. destruct c.
    - destruct (Flush _ w) as [[wal3 w3] [e|]] eqn:EF; [discriminate|].
      apply Flush_ok in EF. destruct EF as (_ & -> & _).
      apply writeEntryToBuffer_ok in H.
      destruct H as (_ & H2 & (b & ->) & _). simpl in *. auto.
    - apply writeEntryToBuffer_ok in H.
      destruct H as (_ & H2 & (b & ->) & _). simpl in *. auto. }
  destruct Hm as [Hm He'].
  repeat split; auto.
  - now rewrite Hs.
  - eapply appended_willing; eauto.
Qed.

End AppendState.

(* ================================================================= *)
(** ** Recovery at open *)

Section Recovery.
Context {codec : EntryCodec}.

(** Passing [size] by value makes the first [binary.Read] of the
    recovery loop decide everything: an empty file gives "no entry",
    anything else an error. *)
Lemma getLastEntry_loop_first fuel w file :
  getLastEntry_loop (S fuel) w file 0 0 0 = Done (Ok None) \/
  exists e, getLastEntry_loop (S fuel) w file 0 0 0 = Done (Err e).
Proof.
  cbn [getLastEntry_loop]. change (skipn (Z.to_nat 0) file) with file.
  unfold binary_Read_val.
  destruct (ReadFull w file 4) as [rest1 [bs|e]].
  - right. eauto.
  - destruct e; simpl; eauto.
Qed.

(** Recovery never yields an entry: on a segment file that is not empty
    it fails. *)
Lemma recovery_fails_on_nonempty_segment wal w file :
  OpenFile_rdonly w (Name (currentSegment wal)) = Ok file ->
  file <> [] ->
  exists e, getLastSequenceNumber wal w = Done (Err e).
Proof.
  intros Ho Hne. unfold getLastSequenceNumber, getLastEntryInCurrentSegment.
  rewrite Ho. cbn [getLastEntry_loop].
  change (skipn (Z.to_nat 0) file) with file.
  unfold binary_Read_val, ReadFull. simpl (4 =? 0).
  destruct (refuses w SysRead); [simpl; eauto|].
  destruct file as [|x file]; [congruence|].
  destruct (len (x :: file) <? 4); simpl; eauto.
Qed.

(** A log that opens starts counting from zero. *)
Lemma GetWAL_lsn w fsync maxSize maxSeg w0 wal0 :
  GetWAL w fsync maxSize maxSeg = (w0, Done (Ok wal0)) ->
  lastSequenceNumber wal0 = 0.
Proof.
  unfold GetWAL.
  destruct (refuses w SysMkdir); [discriminate|].
  destruct (match Glob w with [] => Ok 0 | _ :: _ => _ end) as [id|e];
    [|discriminate].
  destruct (OpenFile_append w (segmentName id)) as [w1 [f|e]]; [|discriminate].
  destruct (refuses w1 SysSeek); [discriminate|].
  unfold getLastSequenceNumber, getLastEntryInCurrentSegment.
  destruct (OpenFile_rdonly w1 _) as [file|e]; [|discriminate].
  destruct (getLastEntry_loop_first (List.length file) w1 file)
    as [-> | [e ->]]; [|discriminate].
  intros H. injection H as _ <-. reflexivity.
Qed.

End Recovery.

(* ================================================================= *)
(** ** Sequence numbers *)

Section SequenceNumbers.
Context {codec : EntryCodec}.

Lemma run_calls_counts cs : forall wal w l walf wf,
  run_calls wal w cs = Some (l, walf, wf) ->
  0 <= lastSequenceNumber wal ->
  lastSequenceNumber wal + len cs < 2 ^ 64 ->
  l = map (fun k => lastSequenceNumber wal + Z.of_nat k)
        (seq 1 (List.length cs)) /\
  lastSequenceNumber walf = lastSequenceNumber wal + len cs.
Proof.
  induction cs as [|[[data c] env] cs IH]; intros wal w l walf wf H H0 Hb.
  - simpl in H. injection H as <- <- <-. unfold len. simpl. split; [auto|lia].
  - cbn [run_calls] in H.
    destruct (writeEntry wal (with_refuses w env) data c)
      as [[wal' w'] [e|]] eqn:EW; [discriminate|].
    destruct (run_calls wal' w' cs) as [[[l' walf'] wf']|] eqn:ER;
      [|discriminate].
    injection H as <- <- <-.
    apply writeEntry_lsn in EW.
    rewrite len_cons in *. pose proof (len_nonneg cs) as Hnn.
    assert (E1 : lastSequenceNumber wal' = lastSequenceNumber wal + 1).
    { rewrite EW. unfold uint64. apply Z.mod_small. lia. }
    destruct (IH _ _ _ _ _ ER) as [Hl Hf]; [lia|rewrite E1; lia|].
    split.
    + cbn [List.length seq map]. f_equal; [lia|].
      rewrite Hl, <- (seq_shift _ 1), map_map.
      apply map_ext. intros k. lia.
    + lia.
Qed.

(** C5 (amended).  On a fresh log every successful [WriteEntry] or
    [CreateCheckpoint] call assigns the sequence number [last + 1] and
    advances [last]: after the k-th successful call the log holds the
    number k, so the assigned numbers are 1, 2, 3, ... (for fewer than
    2^64 calls), and the record a call appends carries the number it was
    assigned.  The calls themselves return an [error] only. *)
Theorem sequence_numbers_count_up
  (w : World) (fsync : bool) (maxSize maxSeg : Z) (w0 : World) (wal0 : WAL)
  (cs : list Call) (l : list Z) (walf : WAL) (wf : World) :
  Glob w = [] ->
  GetWAL w fsync maxSize maxSeg = (w0, Done (Ok wal0)) ->
  run_calls wal0 w0 cs = Some (l, walf, wf) ->
  len cs < 2 ^ 64 ->
  l = map Z.of_nat (seq 1 (List.length cs)) /\
  lastSequenceNumber walf = len cs /\
  (forall wal w1 data c wal' w',
      writeEntry wal w1 data c = (wal', w', None) ->
      lastSequenceNumber wal' = uint64 (lastSequenceNumber wal + 1) /\
      (present w1 (Name (currentSegment wal)) ->
       pending wal' w' =
         (if rotates wal w1 then [] else pending wal w1)
         ++ frame (newEntry (uint64 (lastSequenceNumber wal + 1)) data c))).
Proof.
  intros _ Hopen Hrun Hlen.
  apply GetWAL_lsn in Hopen.
  destruct (run_calls_counts _ _ _ _ _ _ Hrun) as [Hl Hf]; try lia.
  rewrite Hopen in *. split; [|split; [lia|]].
  - rewrite Hl. apply map_ext. intros k. lia.
  - intros wal w1 data c wal' w' H.
    pose proof (writeEntry_lsn _ _ _ _ _ _ H) as L. split; [exact L|].
    intros P. rewrite <- L. apply (writeEntry_pending _ _ _ _ _ _ H P).
Qed.

End SequenceNumbers.

(** C5 as specified does not hold.  Two successive successful writes on a
    fresh log return the same value, the [nil] error: the sequence
    numbers 1 and 2 are assigned inside the log but not returned. *)
Lemma write_returns_only_an_error :
  exists wal0 w0 wal1 w1 wal2 w2,
    GetWAL emptyDir false 1000000 3 = (w0, Done (Ok wal0)) /\
    WriteEntry wal0 w0 pA = (wal1, w1, None) /\
    WriteEntry wal1 w1 pB = (wal2, w2, None) /\
    lastSequenceNumber wal1 = 1 /\ lastSequenceNumber wal2 = 2 /\
    snd (WriteEntry wal0 w0 pA) = snd (WriteEntry wal1 w1 pB).
Proof.
  do 6 eexists.
  split; [vm_compute; reflexivity|].
  split; [vm_compute; reflexivity|].
  split; [vm_compute; reflexivity|].
  split; [reflexivity|]. split; reflexivity.
Qed.

(** C5 (amended) on three calls, the second a checkpoint, on a fresh log. *)
Lemma sequence_numbers_count_up_witness :
  exists w0 wal0 l walf wf,
    Glob emptyDir = [] /\
    GetWAL emptyDir false 1000000 3 = (w0, Done (Ok wal0)) /\
    run_calls wal0 w0 [(pA, false, quiet); (pB, true, quiet); (pC, false, quiet)]
    = Some (l, walf, wf) /\
    l = map Z.of_nat (seq 1 3) /\ lastSequenceNumber walf = 3.
Proof.
  do 5 eexists.
  split; [reflexivity|].
  match goal with
  | |- ?A /\ ?B /\ _ =>
      assert (H1 : A) by (vm_compute; reflexivity);
      assert (H2 : B) by (vm_compute; reflexivity)
  end.
  split; [exact H1|]. split; [exact H2|].
  destruct (sequence_numbers_count_up (codec := SampleCodec)
              emptyDir false 1000000 3 _ _ _ _ _ _ eq_refl H1 H2)
    as (Hl & Hf & _).
  - vm_compute. reflexivity.
  - split; [exact Hl|exact Hf].
Defined.

(* ================================================================= *)
(** ** Reopening a log *)

(** C1.  The code does not recover the last sequence number: after one
    write and a clean close the segment holds exactly one frame, and
    opening the same directory again fails with the error of
    [binary.Read] on a non-pointer ("invalid type int32"), so no log is
    returned and no next write can take place. *)
Theorem reopen_after_write_fails :
  exists wal w,
    step Close
      (step (fun wal w => WriteEntry wal w pA)
         (opened (GetWAL emptyDir false 1000000 3))) = Some (wal, w) /\
    lastSequenceNumber wal = 1 /\
    files w = [(segmentName 0, frame (newEntry 1 pA false))] /\
    GetWAL w false 1000000 3 = (w, Done (Err ErrInvalidType)).
Proof.
  do 2 eexists.
  split; [vm_compute; reflexivity|].
  split; [reflexivity|].
  split; vm_compute; reflexivity.
Qed.

(* ================================================================= *)
(** ** Reading without a checkpoint *)

(** C2.  With two records and no checkpoint on disk, the filtered read of
    the current segment returns nothing, but the filtered read from
    segment 0 returns both records. *)
Theorem read_from_index_ignores_missing_checkpoint :
  exists wal w,
    step Close
      (step (fun wal w => WriteEntry wal w pB)
         (step (fun wal w => WriteEntry wal w pA)
            (opened (GetWAL emptyDir false 1000000 3)))) = Some (wal, w) /\
    ReadAllFromCurrent wal w true = Done ([], None) /\
    ReadAllFromIndex w 0 true =
      Done ([newEntry 1 pA false; newEntry 2 pB false], None).
Proof.
  do 2 eexists.
  split; [vm_compute; reflexivity|].
  split; vm_compute; reflexivity.
Qed.

(* ================================================================= *)
(** ** Order of replay *)

(** C3.  Eleven one-record segments, written in order by a log that
    rotates on every write: replay from segment 0 visits segment-10
    before segment-2, so record 11 comes back between records 2 and 3. *)
Theorem replay_follows_listing_order :
  exists wal w,
    step Close (writes 11 (opened (GetWAL emptyDir false 1 100)))
      = Some (wal, w) /\
    map fst (files w) = map segmentName [0; 1; 2; 3; 4; 5; 6; 7; 8; 9; 10] /\
    Glob w = map segmentName [0; 1; 10; 2; 3; 4; 5; 6; 7; 8; 9] /\
    lsns (ReadAllFromIndex w 0 false)
      = Some ([1; 2; 11; 3; 4; 5; 6; 7; 8; 9; 10], None) /\
    lsns (ReadAllFromIndex w 2 false)
      = Some ([11; 3; 4; 5; 6; 7; 8; 9; 10], None).
Proof.
  do 2 eexists.
  split; [vm_compute; reflexivity|].
  repeat split; vm_compute; reflexivity.
Qed.

(* ================================================================= *)
(** ** Failed appends *)

Section FailedAppend.
Context {codec : EntryCodec}.


(** Once the writer carries its sticky error no later [writeEntry] on the
    same log succeeds: the rotation's flush, the checkpoint's flush and
    the write to the buffer all return that error.  (A failed [Sync]
    leaves no such error behind.) *)
Lemma sticky_error_blocks_writes wal w data c e :
  werr (bufferWriter wal) = Some e ->
  exists e', snd (writeEntry wal w data c) = Some e'.
Proof.
  intros He. unfold writeEntry.
  assert (HF : forall wal0 w0, bufferWriter wal0 = bufferWriter wal ->
                 exists wal1 w1, Flush wal0 w0 = (wal1, w1, Some e)).
  { intros wal0 w0 Hb. unfold Flush, bufio_Flush. rewrite Hb, He. eauto. }
  destruct (changeLogSegmentIfNeeded wal w) as [[wal1 w1] [e1|]] eqn:EC;
    [simpl; eauto|].
  assert (Hb1 : bufferWriter wal1 = bufferWriter wal).
  { unfold changeLogSegmentIfNeeded in EC.
    destruct (file_Stat_Size w (currentSegment wal)); [|discriminate].
    destruct (_ >=? _).
    - unfold changeLogSegment in EC.
      destruct (HF wal w eq_refl) as (wa & wb & HFl).
      rewrite HFl in EC. discriminate.
    - injection EC as <- _. reflexivity. }
  destruct c.
  - destruct (HF (set_lsn wal1 (uint64 (lastSequenceNumber wal1 + 1))) w1 Hb1)
      as (wa & wb & ->). simpl. eauto.
  - unfold writeEntryToBuffer, bufio_Write.
    cbn [set_lsn bufferWriter currentSegment]. rewrite Hb1.
    rewrite (bufio_Write_loop_stuck _ _ _ _ _ e He). rewrite He.
    simpl. eauto.
Qed.


End FailedAppend.



(* ================================================================= *)
(** ** Failed reads *)

Section FailedRead.
Context {codec : EntryCodec}.


End FailedRead.



(* ================================================================= *)
(** ** Checksums *)

Section Checksums.
Context {codec : EntryCodec}.







End Checksums.


(* ================================================================= *)
(** ** Retention *)





(* ================================================================= *)
(** ** Opening a fresh directory *)

Lemma sort_names_nil l : sort_names l = [] -> l = [].
Proof.
  destruct l as [|x l]; [reflexivity|]. simpl.
  destruct (sort_names l) as [|y r]; simpl; [discriminate|].
  destruct (String.leb x y); discriminate.
Qed.

Lemma lookup_in name fs c :
  lookup name fs = Some c -> In name (map fst fs).
Proof.
  induction fs as [|[n c0] fs IH]; simpl; [discriminate|].
  destruct (String.eqb n name) eqn:E.
  - apply String.eqb_eq in E. auto.
  - auto.
Qed.

(** A directory without segment files has no [segment-0]. *)
Lemma Glob_nil_no_segment w id :
  Glob w = [] -> lookup (segmentName id) (files w) = None.
Proof.
  intros HG. unfold Glob in HG. apply sort_names_nil in HG.
  destruct (lookup (segmentName id) (files w)) as [c|] eqn:E; [|reflexivity].
  apply lookup_in in E.
  assert (Hin : In (segmentName id)
                  (filter (String.prefix SegmentPrefix) (map fst (files w)))).
  { apply filter_In. split; [exact E|].
    unfold segmentName, SegmentPrefix. simpl.
    destruct (NilZero.string_of_int (Z.to_int id)); reflexivity. }
  rewrite HG in Hin. destruct Hin.
Qed.

Section FreshOpen.
Context {codec : EntryCodec}.

(** Opening a directory without segment files, on a willing system,
    gives a healthy log on the new empty [segment-0], counting from 0. *)
Lemma GetWAL_fresh w fsync maxSize maxSeg :
  willing w -> Glob w = [] ->
  exists w0 wal0,
    GetWAL w fsync maxSize maxSeg = (w0, Done (Ok wal0)) /\
    healthy wal0 w0 /\
    pending wal0 w0 = [] /\
    lastSequenceNumber wal0 = 0 /\
    maxSegmentSize wal0 = maxSize.
Proof.
  intros Hw HG.
  pose proof (Glob_nil_no_segment w 0 HG) as Hno.
  unfold GetWAL. rewrite (Hw SysMkdir), HG.
  unfold OpenFile_append. rewrite (Hw SysOpen), Hno.
  set (w0 := set_files w (files w ++ [(segmentName 0, [])])).
  assert (Hw0 : willing w0) by (intros s; apply Hw).
  assert (Hl0 : lookup (segmentName 0) (files w0) = Some []).
  { subst w0. cbn [set_files files]. rewrite lookup_app, Hno.
    cbn [lookup]. now rewrite String.eqb_refl. }
  rewrite (Hw0 SysSeek).
  unfold getLastSequenceNumber, getLastEntryInCurrentSegment, OpenFile_rdonly.
  cbn [currentSegment Name]. rewrite (Hw0 SysOpen), Hl0.
  cbn [List.length getLastEntry_loop].
  unfold binary_Read_val, ReadFull. cbn [skipn Z.to_nat].
  simpl (4 =? 0). rewrite (Hw0 SysRead). cbn [Z.eqb].
  do 2 eexists. split; [reflexivity|].
  split; [|split; [|split; reflexivity]].
  - unfold healthy, present. cbn [set_lsn currentSegment Name closed
                                   bufferWriter NewWriter werr].
    rewrite Hl0. repeat split; auto. discriminate.
  - unfold pending, content. cbn [set_lsn currentSegment Name bufferWriter
                                   NewWriter buf].
    rewrite Hl0. reflexivity.
Qed.


End FreshOpen.

(* ================================================================= *)
(** ** Checkpoints *)

Section Checkpoints.
Context {codec : EntryCodec}.


End Checkpoints.



(* ================================================================= *)
(** ** Reading from the last checkpoint *)

Section CheckpointFilter.
Context {codec : EntryCodec}.

(** One more entry on a healthy log that need not rotate. *)
Lemma writeEntry_next wal w data c n :
  healthy wal w ->
  len (pending wal w) < int64 (maxSegmentSize wal) ->
  lastSequenceNumber wal = n -> 0 <= n -> n + 1 < 2 ^ 64 ->
  exists wal' w',
    writeEntry wal w data c = (wal', w', None) /\
    healthy wal' w' /\
    pending wal' w' = pending wal w ++ frame (newEntry (n + 1) data c) /\
    lastSequenceNumber wal' = n + 1 /\
    maxSegmentSize wal' = maxSegmentSize wal.
Proof.
  intros Hh Hsz Hn H0 H1.
  destruct (writeEntry_healthy wal w data c Hh Hsz)
    as (wal' & w' & H & Hh' & _ & Hm & Hr).
  exists wal', w'. split; [exact H|]. split; [exact Hh'|].
  pose proof (writeEntry_lsn _ _ _ _ _ _ H) as L.
  assert (L' : lastSequenceNumber wal' = n + 1).
  { rewrite L, Hn. unfold uint64. apply Z.mod_small. lia. }
  destruct Hh as (_ & _ & _ & P).
  destruct (writeEntry_pending _ _ _ _ _ _ H P) as [_ Hp].
  rewrite Hr, L' in Hp. auto.
Qed.


End CheckpointFilter.



(* ================================================================= *)
(** ** The current segment without a checkpoint *)

Section NoCheckpoint.
Context {codec : EntryCodec}.

(** The filtered read of the current segment returns nothing when the
    segment holds no checkpoint record; the unfiltered read returns every
    entry. *)
Lemma read_current_without_checkpoint wal w es :
  codec_roundtrip codec ->
  willing w ->
  lookup (Name (currentSegment wal)) (files w) = Some (frames es) ->
  Forall valid_entry es ->
  Forall (fun e => GetIsCheckpoint e = false) es ->
  ReadAllFromCurrent wal w true = Done ([], None) /\
  ReadAllFromCurrent wal w false = Done (es, None).
Proof.
  intros codec_ok Hw Hl Hv Hn.
  unfold ReadAllFromCurrent, OpenFile_rdonly. rewrite (Hw SysOpen), Hl.
  rewrite !(readAllEntriesFromFile_frames codec_ok) by auto.
  rewrite scan_filtered, scan_unfiltered.
  apply from_last_checkpoint_none in Hn. rewrite Hn. split; reflexivity.
Qed.

End NoCheckpoint.

(* ================================================================= *)
(** ** Replay over several segments *)

Section Replay.
Context {codec : EntryCodec}.

Lemma ReadAllFromIndex_loop_plain w index b segs : forall acc prev,
  codec_roundtrip codec ->
  willing w ->
  0 <= prev ->
  Forall (segment_holds w) segs ->
  (b = true ->
   Forall (fun seg => Forall (fun e => GetIsCheckpoint e = false) (snd seg))
     segs) ->
  ReadAllFromIndex_loop w (map fst segs) index b acc prev =
  Done (acc ++ List.concat (map snd (from_index index segs)), None).
Proof.
  induction segs as [|[name es] segs IH];
    intros acc prev codec_ok Hw Hp Hs Hn.
  - simpl. now rewrite app_nil_r.
  - inversion Hs as [|? ? ((i & Hi) & Hl & Hv) Hs']; subst.
    cbn [fst snd] in Hi, Hl, Hv.
    assert (Hn' : b = true ->
              Forall (fun seg =>
                        Forall (fun e => GetIsCheckpoint e = false) (snd seg))
                segs)
      by (intros Hb; specialize (Hn Hb); inversion Hn; assumption).
    cbn [map fst ReadAllFromIndex_loop from_index filter].
    fold (segmentIdx name). fold (from_index index segs). rewrite Hi.
    rewrite Z.leb_antisym. destruct (i <? index); cbn [negb].
    + now apply IH.
    + unfold OpenFile_rdonly. rewrite (Hw SysOpen), Hl.
      rewrite (readAllEntriesFromFile_frames codec_ok) by auto.
      assert (Hscan : scan b ([], 0) es = (es, 0)).
      { destruct b.
        - rewrite scan_filtered.
          specialize (Hn eq_refl). inversion Hn as [|? ? Hes _]; subst.
          cbn [snd] in Hes. apply from_last_checkpoint_none in Hes.
          now rewrite Hes.
        - now rewrite scan_unfiltered. }
      rewrite Hscan. cbn [fst snd map List.concat].
      replace (0 >? prev) with false
        by (symmetry; rewrite Z.gtb_ltb; apply Z.ltb_ge; lia).
      rewrite andb_false_r.
      rewrite IH by auto. now rewrite app_assoc.
Qed.

(** What [ReadAllFromIndex] does on a directory of well-formed segments,
    read without filtering, or with filtering when no segment holds a
    checkpoint: it returns the entries of the segments with suffix at
    least [index], segment after segment in the order of the listing,
    each segment in its on-disk order. *)
Lemma read_from_index_in_listing_order w index b segs :
  codec_roundtrip codec ->
  willing w ->
  Glob w = map fst segs ->
  Forall (segment_holds w) segs ->
  (b = true ->
   Forall (fun seg => Forall (fun e => GetIsCheckpoint e = false) (snd seg))
     segs) ->
  ReadAllFromIndex w index b =
  Done (List.concat (map snd (from_index index segs)), None).
Proof.
  intros codec_ok Hw HG Hs Hn. unfold ReadAllFromIndex. rewrite HG.
  rewrite (ReadAllFromIndex_loop_plain w index b segs [] 0); auto; lia.
Qed.

End Replay.

(* ================================================================= *)
(** ** Segment names *)

Lemma substring_all s : String.substring 0 (String.length s) s = s.
Proof. induction s as [|c s IH]; simpl; [reflexivity|now rewrite IH]. Qed.

Lemma TrimPrefix_append pre s : TrimPrefix (String.append pre s) pre = s.
Proof.
  unfold TrimPrefix.
  assert (Hp : String.prefix pre (String.append pre s) = true).
  { induction pre as [|c pre IH]; simpl; [destruct s; reflexivity|].
    destruct (ascii_dec c c); [exact IH|congruence]. }
  rewrite Hp. clear Hp.
  induction pre as [|c pre IH]; simpl.
  - rewrite Nat.sub_0_r. apply substring_all.
  - exact IH.
Qed.

Lemma uint_value_mono d : forall n, 0 <= n -> n <= uint_value d n.
Proof.
  induction d; intros n Hn; simpl; try lia;
    match goal with
    | |- _ <= uint_value _ ?m => pose proof (IHd m); lia
    end.
Qed.

(** The digit loop of [ParseUint] reads a printed number back. *)
Lemma parse_digits_printed d : forall n,
  0 <= n -> uint_value d n <= maxUint64 ->
  parse_digits (NilEmpty.string_of_uint d) n = Ok (uint_value d n).
Proof.
  assert (Step : forall k d n,
    0 <= k <= 9 -> 0 <= n -> uint_value d (n * 10 + k) <= maxUint64 ->
    (n >=? maxUint64 / 10 + 1) = false /\
    (n * 10 + k >? maxUint64) = false).
  { intros k d0 n Hk Hn Hv.
    pose proof (uint_value_mono d0 (n * 10 + k)) as Hm.
    assert (Hle : n * 10 + k <= maxUint64) by lia.
    unfold maxUint64 in *. change (2 ^ 64 - 1) with 18446744073709551615 in *.
    change (18446744073709551615 / 10 + 1) with 1844674407370955162.
    split.
    - rewrite Z.geb_leb. apply Z.leb_gt. lia.
    - rewrite Z.gtb_ltb. apply Z.ltb_ge. lia. }
  induction d; intros n Hn Hv; cbn [NilEmpty.string_of_uint uint_value] in *;
    [reflexivity| | | | | | | | | |];
    cbn [parse_digits];
    match goal with
    | Hv : uint_value _ (n * 10 + ?k) <= _ |- _ =>
        destruct (Step k d n ltac:(lia) Hn Hv) as [S1 S2];
        change (negb (is_digit _)) with false; cbv iota;
        rewrite S1;
        match goal with
        | |- context [digit_val ?c] => change (digit_val c) with k
        end;
        cbv zeta; rewrite S2; apply IHd; [lia|exact Hv]
    end.
Qed.

Lemma uint_value_acc d : forall acc,
  uint_value d (Zpos acc) = Zpos (Pos.of_uint_acc d acc).
Proof.
  induction d; intros acc; cbn [uint_value Pos.of_uint_acc];
    try reflexivity; rewrite <- IHd; apply (f_equal (uint_value d)); lia.
Qed.

Lemma uint_value_of_uint d : uint_value d 0 = Z.of_N (Pos.of_uint d).
Proof.
  induction d; simpl; try reflexivity; try exact IHd;
    apply uint_value_acc.
Qed.

Lemma uint_value_to_uint p : uint_value (Pos.to_uint p) 0 = Zpos p.
Proof.
  rewrite uint_value_of_uint, DecimalPos.Unsigned.of_to. reflexivity.
Qed.

Lemma Atoi_unsigned c s :
  is_digit c = true ->
  Atoi (String c s) =
  match parse_digits (String c s) 0 with
  | Err e => Err e
  | Ok un => if un >=? 2 ^ 63 then Err ErrRange else Ok un
  end.
Proof.
  intros Hd. unfold Atoi.
  assert (Hs : Ascii.eqb c "-"%char = false /\ Ascii.eqb c "+"%char = false).
  { destruct c as [[|] [|] [|] [|] [|] [|] [|] [|]];
      try discriminate Hd; split; reflexivity. }
  destruct Hs as [-> ->]. cbn [orb negb andb].
  destruct (parse_digits (String c s) 0) as [un|e]; [|reflexivity].
  destruct (un >=? 2 ^ 63); reflexivity.
Qed.

Lemma printed_head d :
  d <> Decimal.Nil ->
  exists c s, NilEmpty.string_of_uint d = String c s /\ is_digit c = true.
Proof.
  destruct d; [congruence| | | | | | | | | |]; intros _;
    cbn [NilEmpty.string_of_uint]; do 2 eexists; split; reflexivity.
Qed.

(** Both parsers read the printed form of a number back. *)
Lemma printed_number_parses z :
  0 <= z < 2 ^ 63 ->
  ParseUint (NilZero.string_of_int (Z.to_int z)) = Ok z /\
  Atoi (NilZero.string_of_int (Z.to_int z)) = Ok z.
Proof.
  intros Hz. destruct z as [|p|p]; [split; reflexivity| |lia].
  cbn [Z.to_int NilZero.string_of_int]. unfold NilZero.string_of_uint.
  pose proof (DecimalPos.Unsigned.to_uint_nonnil p) as Hnn.
  destruct (Pos.to_uint p) as [|d|d|d|d|d|d|d|d|d|d] eqn:Ed;
    [congruence| | | | | | | | | |];
    rewrite <- Ed in *;
    (destruct (printed_head _ Hnn) as (c & s & Hcs & Hc);
     assert (Hp : parse_digits (NilEmpty.string_of_uint (Pos.to_uint p)) 0
                  = Ok (Zpos p))
       by (rewrite parse_digits_printed;
           rewrite ?uint_value_to_uint; [reflexivity|lia|
             unfold maxUint64; change (2 ^ 64 - 1) with 18446744073709551615;
             change (2 ^ 63) with 9223372036854775808 in Hz; lia]);
     rewrite Hcs in *; split;
     [unfold ParseUint; exact Hp
     |rewrite (Atoi_unsigned c s Hc), Hp;
      replace (Z.pos p >=? 2 ^ 63) with false
        by (symmetry; rewrite Z.geb_leb; apply Z.leb_gt; lia);
      reflexivity]).
Qed.

(** X1.  The name [CreateSegmentFile] gives to segment [id] is read back
    as [id] by every parser of segment names: [FindLastSegmentId] (used
    when a log is opened) and the [Atoi] of [findOldestSegmentFile] and
    [ReadAllFromIndex]. *)
Theorem segment_name_round_trip (id : Z) :
  0 <= id < 2 ^ 63 ->
  ParseUint (TrimPrefix (segmentName id) SegmentPrefix) = Ok id /\
  segmentIdx (segmentName id) = Ok id /\
  FindLastSegmentId [segmentName id] = Ok id /\
  findOldestSegmentFile [segmentName id]
  = Ok (if id <? MaxInt64 then segmentName id else EmptyString).
Proof.
  intros Hid. unfold segmentIdx, FindLastSegmentId, findOldestSegmentFile.
  cbn [FindLastSegmentId_from findOldest_from].
  unfold segmentName at 1 2 3 4. rewrite !TrimPrefix_append.
  destruct (printed_number_parses id Hid) as [-> ->].
  split; [reflexivity|]. split; [reflexivity|]. split.
  - destruct (id >? 0) eqn:E; [reflexivity|].
    rewrite Z.gtb_ltb in E. apply Z.ltb_ge in E.
    assert (id = 0) by lia. subst. reflexivity.
  - destruct (id <? MaxInt64); reflexivity.
Qed.

(** X1 at segment 10. *)
Lemma segment_name_round_trip_witness :
  0 <= 10 < 2 ^ 63 /\
  segmentIdx (segmentName 10) = Ok 10 /\
  FindLastSegmentId [segmentName 10] = Ok 10.
Proof.
  assert (H : 0 <= 10 < 2 ^ 63) by (split; [discriminate|reflexivity]).
  destruct (segment_name_round_trip 10 H) as (_ & H2 & H3 & _).
  repeat split; assumption || (destruct H; assumption).
Defined.

(* ================================================================= *)
(** ** The highest segment *)

Lemma FindLastSegmentId_from_spec fs : forall m0 m,
  FindLastSegmentId_from fs m0 = Ok m ->
  m0 <= m /\
  (forall f, In f fs ->
     exists i, ParseUint (TrimPrefix f SegmentPrefix) = Ok i /\ i <= m) /\
  (m = m0 \/
   exists f, In f fs /\ ParseUint (TrimPrefix f SegmentPrefix) = Ok m).
Proof.
  induction fs as [|file rest IH]; intros m0 m H.
  - simpl in H. injection H as <-. split; [lia|]. split; [intros f []|auto].
  - cbn [FindLastSegmentId_from] in H.
    destruct (ParseUint (TrimPrefix file SegmentPrefix)) as [i|e] eqn:Ei;
      [|discriminate].
    destruct (IH _ _ H) as (Hle & Hall & Hin).
    destruct (i >? m0) eqn:Ec.
    + apply Z.gtb_lt in Ec. split; [lia|]. split.
      * intros f [<-|Hf]; [exists i; split; [auto|lia]|auto].
      * right. destruct Hin as [->|(f & Hf & Hp)];
          [exists file; split; [left; reflexivity|exact Ei]
          |exists f; split; [right; exact Hf|exact Hp]].
    + rewrite Z.gtb_ltb in Ec. apply Z.ltb_ge in Ec. split; [lia|]. split.
      * intros f [<-|Hf]; [exists i; split; [auto|lia]|auto].
      * destruct Hin as [->|(f & Hf & Hp)]; [left; reflexivity|].
        right. exists f. split; [right; exact Hf|exact Hp].
Qed.

(** X2.  When [FindLastSegmentId] succeeds, every listed file has a
    numeric suffix, the result is at least each of them, and it is the
    suffix of one of the files, or 0 when there is none larger than 0
    (in particular for an empty list). *)
Theorem FindLastSegmentId_is_the_maximum (fs : list string) (m : Z) :
  FindLastSegmentId fs = Ok m ->
  (forall f, In f fs ->
     exists i, ParseUint (TrimPrefix f SegmentPrefix) = Ok i /\ i <= m) /\
  (m = 0 \/
   exists f, In f fs /\ ParseUint (TrimPrefix f SegmentPrefix) = Ok m).
Proof.
  intros H. apply FindLastSegmentId_from_spec in H. tauto.
Qed.

(** X2 on the listing segment-2, segment-10, segment-9. *)
Lemma FindLastSegmentId_is_the_maximum_witness :
  FindLastSegmentId [segmentName 2; segmentName 10; segmentName 9] = Ok 10 /\
  exists i, ParseUint (TrimPrefix (segmentName 9) SegmentPrefix) = Ok i /\
            i <= 10.
Proof.
  assert (H : FindLastSegmentId [segmentName 2; segmentName 10; segmentName 9]
              = Ok 10) by reflexivity.
  split; [exact H|].
  destruct (FindLastSegmentId_is_the_maximum _ _ H) as [Hall _].
  apply Hall. right. right. left. reflexivity.
Defined.

(** X3.  [FindLastSegmentId] fails exactly when some listed file has a
    suffix that [ParseUint] rejects: the file is not skipped. *)
Theorem FindLastSegmentId_fails_on_bad_name (fs : list string) :
  (exists e, FindLastSegmentId fs = Err e) <->
  (exists f e, In f fs /\ ParseUint (TrimPrefix f SegmentPrefix) = Err e).
Proof.
  unfold FindLastSegmentId. generalize 0 as m0.
  induction fs as [|file rest IH]; intros m0.
  - simpl. split; [intros [e H]; discriminate|intros (f & e & [] & _)].
  - cbn [FindLastSegmentId_from].
    destruct (ParseUint (TrimPrefix file SegmentPrefix)) as [i|e0] eqn:Ei.
    + rewrite IH. split.
      * intros (f & e & Hf & He). exists f, e. split; [right; exact Hf|exact He].
      * intros (f & e & [<-|Hf] & He); [congruence|eauto].
    + split; [|eauto]. intros _. exists file, e0.
      split; [left; reflexivity|exact Ei].
Qed.

(* ================================================================= *)
(** ** Flushing and closing *)

Lemma Flush_appended wal w wal' w' e :
  Flush wal w = (wal', w', e) ->
  exists bytes,
    appended w w' (Name (currentSegment wal)) bytes /\
    bytes ++ buf (bufferWriter wal') = buf (bufferWriter wal) /\
    currentSegment wal' = currentSegment wal /\
    lastSequenceNumber wal' = lastSequenceNumber wal.
Proof.
  unfold Flush.
  destruct (bufio_Flush (currentSegment wal) (bufferWriter wal) w)
    as [[b w1] [e1|]] eqn:EF.
  - intros H. injection H as <- <- _.
    apply bufio_Flush_err in EF. destruct EF as (Hb & -> & _).
    exists []. split; [apply appended_refl|]. simpl. auto.
  - apply bufio_Flush_ok in EF. destruct EF as (_ & -> & A).
    intros H.
    assert (R : wal' = set_writer wal NewWriter /\ w' = w1).
    { destruct (shouldFsync wal);
        [destruct (file_Sync w1 (currentSegment wal))|];
        injection H as <- <- _; auto. }
    destruct R as [-> ->].
    exists (buf (bufferWriter wal)). split; [exact A|].
    simpl. rewrite app_nil_r. auto.
Qed.

Lemma Glob_same_names w w' :
  map fst (files w') = map fst (files w) -> Glob w' = Glob w.
Proof. intros H. unfold Glob. now rewrite H. Qed.

(** X4.  [Flush] neither loses nor duplicates bytes, whatever its
    outcome: the bytes of the current segment on disk followed by the
    buffered ones are the same before and after, the sequence number and
    the other files are untouched, and no file appears or disappears.
    When it reports no error the buffer is empty and the segment file
    holds everything. *)
Theorem Flush_keeps_the_pending_bytes
  (wal : WAL) (w : World) (wal' : WAL) (w' : World) (e : option error) :
  Flush wal w = (wal', w', e) ->
  present w (Name (currentSegment wal)) ->
  pending wal' w' = pending wal w /\
  lastSequenceNumber wal' = lastSequenceNumber wal /\
  Glob w' = Glob w /\
  (forall n, n <> Name (currentSegment wal) ->
             lookup n (files w') = lookup n (files w)) /\
  (e = None ->
   buf (bufferWriter wal') = [] /\
   content w' (Name (currentSegment wal)) = pending wal w).
Proof.
  intros H P.
  destruct (Flush_appended _ _ _ _ _ H) as (bytes & A & Q & Hs & Hl).
  pose proof (appended_content _ _ _ _ A P) as Hc.
  destruct A as (_ & Hm & Ho & _ & _).
  split; [|split; [exact Hl|split; [now apply Glob_same_names|split]]].
  - unfold pending. rewrite Hs, Hc, <- Q, app_assoc. reflexivity.
  - exact Ho.
  - intros ->. apply Flush_ok in H. destruct H as (_ & -> & A).
    split; [reflexivity|]. apply (appended_content _ _ _ _ A P).
Qed.

(** X4 on a log with one buffered record. *)
Lemma Flush_keeps_the_pending_bytes_witness :
  exists wal w wal' w',
    writes 1 (opened (GetWAL emptyDir false 1000000 3)) = Some (wal, w) /\
    Flush wal w = (wal', w', None) /\
    present w (Name (currentSegment wal)) /\
    content w' (segmentName 0) = frame (newEntry 1 pA false) /\
    pending wal' w' = pending wal w.
Proof.
  do 4 eexists.
  split; [vm_compute; reflexivity|].
  match goal with
  | |- ?A /\ ?B /\ _ =>
      assert (H : A) by (vm_compute; reflexivity);
      assert (P : B) by (vm_compute; discriminate)
  end.
  split; [exact H|]. split; [exact P|].
  destruct (Flush_keeps_the_pending_bytes _ _ _ _ _ H P) as (Hp & _).
  split; [vm_compute; reflexivity|exact Hp].
Defined.

(** X5.  A second [Flush] right after a successful one changes nothing
    and reports no error. *)
Theorem Flush_twice (wal : WAL) (w : World) (wal1 : WAL) (w1 : World) :
  Flush wal w = (wal1, w1, None) ->
  Flush wal1 w1 = (wal1, w1, None).
Proof.
  unfold Flush.
  destruct (bufio_Flush (currentSegment wal) (bufferWriter wal) w)
    as [[b wm] [e|]] eqn:EF; [discriminate|].
  apply bufio_Flush_ok in EF. destruct EF as (_ & -> & _).
  destruct (shouldFsync wal) eqn:Es.
  - destruct (file_Sync wm (currentSegment wal)) eqn:ES; [discriminate|].
    intros H. injection H as <- <-.
    cbn [set_writer currentSegment bufferWriter shouldFsync].
    unfold bufio_Flush, NewWriter, Buffered. cbn [werr buf].
    change (len (@nil byte) =? 0) with true. cbv iota.
    rewrite Es, ES. reflexivity.
  - intros H. injection H as <- <-.
    cbn [set_writer currentSegment bufferWriter shouldFsync].
    unfold bufio_Flush, NewWriter, Buffered. cbn [werr buf].
    change (len (@nil byte) =? 0) with true. cbv iota.
    rewrite Es. reflexivity.
Qed.

(** X5 on a log with one buffered record and fsync enabled. *)
Lemma Flush_twice_witness :
  exists wal w wal1 w1,
    writes 1 (opened (GetWAL emptyDir true 1000000 3)) = Some (wal, w) /\
    Flush wal w = (wal1, w1, None) /\
    Flush wal1 w1 = (wal1, w1, None).
Proof.
  do 4 eexists.
  split; [vm_compute; reflexivity|].
  match goal with
  | |- ?A /\ _ => assert (H : A) by (vm_compute; reflexivity)
  end.
  split; [exact H|]. exact (Flush_twice _ _ _ _ H).
Defined.

Section ClosedLog.
Context {codec : EntryCodec}.

(** X6.  A successful [Close] leaves the segment file holding every
    byte that was on disk or buffered, and the log unusable: any later
    write or checkpoint fails with the closed-file error before the
    sequence number moves, changing neither the log nor the directory,
    and a second [Close] fails with the same error. *)
Theorem Close_then_nothing_more
  (wal : WAL) (w : World) (wal' : WAL) (w' : World) :
  Close wal w = (wal', w', None) ->
  closed (currentSegment wal') = true /\
  buf (bufferWriter wal') = [] /\
  lastSequenceNumber wal' = lastSequenceNumber wal /\
  (present w (Name (currentSegment wal)) ->
   content w' (Name (currentSegment wal)) = pending wal w) /\
  (forall w2 data c, writeEntry wal' w2 data c = (wal', w2, Some ErrClosed)) /\
  (forall w2, exists wal2, Close wal' w2 = (wal2, w2, Some ErrClosed)).
Proof.
  unfold Close.
  destruct (Flush wal w) as [[wal1 w1] [e|]] eqn:EF; [discriminate|].
  pose proof EF as EF'. apply Flush_ok in EF'.
  destruct EF' as (_ & -> & A).
  unfold file_Close. cbn [set_writer currentSegment].
  destruct (closed (currentSegment wal)) eqn:Ec; [discriminate|].
  destruct (refuses w1 SysClose); [discriminate|].
  intros H. injection H as <- <-.
  cbn [set_segment set_writer currentSegment bufferWriter closed
       lastSequenceNumber NewWriter buf Name].
  split; [reflexivity|]. split; [reflexivity|]. split; [reflexivity|].
  split; [|split].
  - intros P. apply (appended_content _ _ _ _ A P).
  - intros w2 data c. unfold writeEntry, changeLogSegmentIfNeeded,
      file_Stat_Size.
    cbn [set_segment set_writer currentSegment closed]. reflexivity.
  - intros w2. unfold Close, Flush, bufio_Flush, file_Sync, file_Close.
    cbn [set_segment set_writer currentSegment bufferWriter closed
         NewWriter werr buf shouldFsync Buffered].
    change (len (@nil byte) =? 0) with true. cbv iota.
    destruct (shouldFsync wal); eexists; reflexivity.
Qed.

(** X7.  An append that needs no rotation and whose frame fits the free
    part of the write buffer stays in memory: the call succeeds, the
    directory is exactly as before, the buffer grows by the frame, and
    the sequence number advances by one. *)
Theorem small_write_stays_in_memory
  (wal : WAL) (w : World) (data : list byte) :
  closed (currentSegment wal) = false ->
  refuses w SysStat = false ->
  werr (bufferWriter wal) = None ->
  rotates wal w = false ->
  let lsn := uint64 (lastSequenceNumber wal + 1) in
  len (buf (bufferWriter wal)) + len (frame (newEntry lsn data false))
    <= defaultBufSize ->
  WriteEntry wal w data =
  (set_writer (set_lsn wal lsn)
     {| buf := buf (bufferWriter wal) ++ frame (newEntry lsn data false);
        werr := None |},
   w, None).
Proof.
  intros Hc Hs He Hr lsn Hfit.
  unfold WriteEntry, writeEntry, changeLogSegmentIfNeeded.
  unfold rotates in Hr.
  unfold file_Stat_Size in *. rewrite Hc, Hs in *. rewrite Hr.
  cbn [set_lsn lastSequenceNumber]. fold lsn.
  unfold writeEntryToBuffer. cbn [currentSegment bufferWriter].
  unfold frame in *. rewrite len_app in Hfit.
  set (hdr := le_encode 4 (int32 (len (MustMarshal (newEntry lsn data false)))))
    in *.
  pose proof (len_nonneg (MustMarshal (newEntry lsn data false))).
  pose proof (len_nonneg hdr).
  change (bufferWriter (set_lsn wal lsn)) with (bufferWriter wal).
  change (currentSegment (set_lsn wal lsn)) with (currentSegment wal).
  rewrite bufio_Write_fits; [|exact He|unfold Available; lia].
  rewrite bufio_Write_fits; [|reflexivity|].
  - cbn [buf]. rewrite <- app_assoc. reflexivity.
  - unfold Available. cbn [buf]. rewrite len_app. lia.
Qed.

End ClosedLog.

(** X6 on a log closed after one write. *)
Lemma Close_then_nothing_more_witness :
  exists wal w wal' w',
    writes 1 (opened (GetWAL emptyDir false 1000000 3)) = Some (wal, w) /\
    Close wal w = (wal', w', None) /\
    writeEntry wal' w' pB false = (wal', w', Some ErrClosed).
Proof.
  do 4 eexists.
  split; [vm_compute; reflexivity|].
  match goal with
  | |- ?A /\ _ => assert (H : A) by (vm_compute; reflexivity)
  end.
  split; [exact H|].
  destruct (Close_then_nothing_more (codec := SampleCodec) _ _ _ _ H)
    as (_ & _ & _ & _ & Hw & _).
  apply Hw.
Defined.

(** X7 on the second write of a fresh log. *)
Lemma small_write_stays_in_memory_witness :
  exists wal w,
    writes 1 (opened (GetWAL emptyDir false 1000000 3)) = Some (wal, w) /\
    WriteEntry wal w pB =
    (set_writer (set_lsn wal 2)
       {| buf := frame (newEntry 1 pA false) ++ frame (newEntry 2 pB false);
          werr := None |},
     w, None).
Proof.
  do 2 eexists.
  split; [vm_compute; reflexivity|].
  etransitivity;
    [apply (small_write_stays_in_memory (codec := SampleCodec));
     vm_compute; (reflexivity || discriminate)|].
  vm_compute. reflexivity.
Defined.

(* ================================================================= *)
(** ** More on rotation *)

Lemma lookup_create_other name n fs :
  n <> name -> lookup n (create name fs) = lookup n fs.
Proof.
  intros Hn. unfold create. destruct (lookup name fs).
  - now apply lookup_store_other.
  - rewrite lookup_app. destruct (lookup n fs); [reflexivity|].
    simpl. destruct (String.eqb name n) eqn:E; [|reflexivity].
    apply String.eqb_eq in E. congruence.
Qed.

(** X8.  A rotation that deletes nothing loses nothing: the segment that
    was current ends up holding every byte that was on disk or buffered
    for it, all other files are as before, and the log continues on the
    new, empty, open segment named after the incremented index, with an
    empty buffer and the same sequence number. *)
Theorem rotation_keeps_the_old_segment
  (wal : WAL) (w : World) (wal' : WAL) (w' : World) :
  changeLogSegment wal w = (wal', w', None) ->
  present w (Name (currentSegment wal)) ->
  uint64 (currentSegmentIndex wal + 1) <= maxSegmentsNumber wal ->
  segmentName (int64 (uint64 (currentSegmentIndex wal + 1)))
    <> Name (currentSegment wal) ->
  currentSegmentIndex wal' = uint64 (currentSegmentIndex wal + 1) /\
  currentSegment wal'
    = {| Name := segmentName (int64 (uint64 (currentSegmentIndex wal + 1)));
         closed := false |} /\
  pending wal' w' = [] /\
  lastSequenceNumber wal' = lastSequenceNumber wal /\
  content w' (Name (currentSegment wal)) = pending wal w /\
  (forall n, n <> Name (currentSegment wal) ->
             n <> Name (currentSegment wal') ->
             lookup n (files w') = lookup n (files w)).
Proof.
  intros H P Hle Hne. unfold changeLogSegment in H.
  destruct (Flush wal w) as [[wal1 w1] [e|]] eqn:EF; [discriminate|].
  apply Flush_ok in EF. destruct EF as (_ & -> & A).
  destruct (file_Close w1 (currentSegment (set_writer wal NewWriter)))
    as [f [e|]]; [discriminate|].
  cbn [set_index set_segment set_writer currentSegmentIndex
       maxSegmentsNumber] in H.
  replace (uint64 (currentSegmentIndex wal + 1) >? maxSegmentsNumber wal)
    with false in H
    by (symmetry; rewrite Z.gtb_ltb; apply Z.ltb_ge; lia).
  unfold CreateSegmentFile in H.
  destruct (refuses w1 SysCreate); [discriminate|].
  injection H as <- <-.
  cbn [set_writer set_segment set_index currentSegmentIndex currentSegment
       lastSequenceNumber Name].
  pose proof (appended_content _ _ _ _ A P) as Hc.
  destruct A as (_ & _ & Ho & _ & Hs).
  split; [reflexivity|]. split; [reflexivity|]. split; [|split; [reflexivity|]].
  - unfold pending, content.
    cbn [set_writer set_segment set_index currentSegment bufferWriter Name
         set_files files NewWriter buf].
    rewrite lookup_create. reflexivity.
  - split.
    + unfold content at 1. cbn [set_files files].
      rewrite lookup_create_other by congruence.
      rewrite (Hs P). reflexivity.
    + intros n Hn1 Hn2. cbn [set_files files].
      rewrite lookup_create_other by exact Hn2. now apply Ho.
Qed.

(** X8 on the first rotation of a log that rotates on every write. *)
Lemma rotation_keeps_the_old_segment_witness :
  exists wal w wal' w',
    writes 1 (opened (GetWAL emptyDir false 1 3)) = Some (wal, w) /\
    changeLogSegment wal w = (wal', w', None) /\
    content w' (segmentName 0) = frame (newEntry 1 pA false) /\
    content w' (Name (currentSegment wal)) = pending wal w.
Proof.
  do 4 eexists.
  split; [vm_compute; reflexivity|].
  match goal with
  | |- ?A /\ _ => assert (H : A) by (vm_compute; reflexivity)
  end.
  split; [exact H|]. split; [vm_compute; reflexivity|].
  apply (rotation_keeps_the_old_segment _ _ _ _ H);
    vm_compute; discriminate.
Defined.

(** X9.  The rotation threshold is compared as a signed 64-bit number: a
    configured maximum segment size of 0, or of 2^63 and more, makes
    every write on an open segment rotate. *)
Theorem extreme_thresholds_always_rotate (wal : WAL) (w : World) :
  maxSegmentSize wal = 0 \/ 2 ^ 63 <= maxSegmentSize wal < 2 ^ 64 ->
  closed (currentSegment wal) = false ->
  refuses w SysStat = false ->
  rotates wal w = true /\
  changeLogSegmentIfNeeded wal w = changeLogSegment wal w.
Proof.
  intros Hm Hc Hs.
  assert (Hi : int64 (maxSegmentSize wal) <= 0).
  { unfold int64. change (2 ^ 64) with 18446744073709551616 in *.
    change (2 ^ 63) with 9223372036854775808 in *.
    destruct Hm as [-> | Hm]; [vm_compute; discriminate|].
    rewrite Z.mod_small by lia.
    destruct (maxSegmentSize wal <? 9223372036854775808) eqn:E; [|lia].
    apply Z.ltb_lt in E. lia. }
  assert (Hr : rotates wal w = true).
  { unfold rotates, file_Stat_Size. rewrite Hc, Hs.
    pose proof (len_nonneg (content w (Name (currentSegment wal)))).
    pose proof (len_nonneg (buf (bufferWriter wal))).
    unfold Buffered. rewrite Z.geb_leb. apply Z.leb_le. lia. }
  split; [exact Hr|].
  unfold changeLogSegmentIfNeeded. unfold rotates in Hr.
  destruct (file_Stat_Size w (currentSegment wal)); [|discriminate].
  now rewrite Hr.
Qed.

(** X9 on a fresh log opened with the maximum size 2^63. *)
Lemma extreme_thresholds_always_rotate_witness :
  exists wal w,
    opened (GetWAL emptyDir false (2 ^ 63) 3) = Some (wal, w) /\
    rotates wal w = true.
Proof.
  do 2 eexists.
  split; [vm_compute; reflexivity|].
  apply extreme_thresholds_always_rotate.
  - right. vm_compute. split; [discriminate|reflexivity].
  - reflexivity.
  - reflexivity.
Defined.

(* ================================================================= *)
(** ** More on retention *)

Lemma lookup_remove_other name n fs :
  n <> name -> lookup n (remove name fs) = lookup n fs.
Proof.
  intros Hn. induction fs as [|[m c] fs IH]; simpl; [reflexivity|].
  destruct (String.eqb m name) eqn:E; simpl.
  - apply String.eqb_eq in E. subst m.
    destruct (String.eqb name n) eqn:E2; [|reflexivity].
    apply String.eqb_eq in E2. congruence.
  - now rewrite IH.
Qed.

(** X10.  [deleteOldestSegment] changes the directory only when it
    succeeds on a non-empty listing, and then by removing one listed
    file, the one [findOldestSegmentFile] picks, leaving every other file
    as it was; when it reports an error (a suffix that does not parse, a
    refused removal) nothing has been deleted. *)
Theorem deleteOldestSegment_removes_one_or_nothing
  (w w' : World) (e : option error) :
  deleteOldestSegment w = (w', e) ->
  (e <> None -> w' = w) /\
  (e = None ->
   (Glob w = [] /\ w' = w) \/
   exists oldest,
     findOldestSegmentFile (Glob w) = Ok oldest /\
     present w oldest /\
     files w' = remove oldest (files w) /\
     refuses w' = refuses w /\
     forall n, n <> oldest -> lookup n (files w') = lookup n (files w)).
Proof.
  unfold deleteOldestSegment. intros H.
  destruct (Glob w) as [|g gs] eqn:EG.
  - injection H as <- <-. split; [congruence|]. intros _. left. auto.
  - destruct (findOldestSegmentFile (g :: gs)) as [oldest|e0] eqn:EO.
    + unfold os_Remove in H.
      destruct (refuses w SysRemove);
        [injection H as <- <-; split; [reflexivity|discriminate]|].
      destruct (lookup oldest (files w)) eqn:EL.
      * injection H as <- <-. split; [congruence|]. intros _. right.
        exists oldest. split; [reflexivity|].
        split; [unfold present; congruence|].
        cbn [set_files files refuses]. repeat split.
        intros n Hn. now apply lookup_remove_other.
      * injection H as <- <-. split; [reflexivity|discriminate].
    + injection H as <- <-. split; [reflexivity|discriminate].
Qed.

(** X10 on a directory with a segment whose suffix is not a number. *)
Lemma deleteOldestSegment_removes_one_or_nothing_witness :
  exists w,
    w = {| files := [(segmentName 1, []); ("segment-x"%string, [])];
           refuses := quiet |} /\
    deleteOldestSegment w = (w, Some ErrSyntax).
Proof.
  eexists. split; [reflexivity|].
  match goal with
  | |- deleteOldestSegment ?w = _ =>
      destruct (deleteOldestSegment w) as [w' e] eqn:E;
      destruct (deleteOldestSegment_removes_one_or_nothing _ _ _ E)
        as [Hu _]
  end.
  assert (He : e = Some ErrSyntax)
    by (vm_compute in E; injection E as _ <-; reflexivity).
  subst e. rewrite Hu by discriminate. reflexivity.
Defined.

(* ================================================================= *)
(** ** More on checksums *)

Lemma byte_of_Z_period z k : byte_of_Z (z + 256 * k) = byte_of_Z z.
Proof.
  unfold byte_of_Z.
  replace ((z + 256 * k) mod 256) with (z mod 256); [reflexivity|].
  rewrite (Z.mul_comm 256 k). now rewrite Z_mod_plus_full.
Qed.

(** X11.  The checksum test sees only the low-order byte of the sequence
    number: replacing the sequence number of an entry by one that
    differs by a multiple of 256 never changes the verdict of
    [isValidCRC]. *)
Theorem isValidCRC_ignores_high_bytes (e : WAL_Entry) (k : Z) :
  isValidCRC (with_lsn e (LogSequenceNumber e + 256 * k)) = isValidCRC e.
Proof.
  unfold isValidCRC, with_lsn. cbn [LogSequenceNumber Data CRC].
  now rewrite byte_of_Z_period.
Qed.

(* ================================================================= *)
(** ** More on recovery *)

Section RecoveryCases.
Context {codec : EntryCodec}.

(** X12.  What recovery at open answers, by the length of the current
    segment file: no prior entry (counter 0) for an empty file, the
    unexpected-EOF error for 1 to 3 bytes, and the invalid-type error of
    the by-value [binary.Read] for 4 bytes and more, whatever the file
    holds. *)
Theorem recovery_by_file_length (wal : WAL) (w : World) (file : list byte) :
  willing w ->
  lookup (Name (currentSegment wal)) (files w) = Some file ->
  getLastSequenceNumber wal w =
  if len file =? 0 then Done (Ok 0)
  else if len file <? 4 then Done (Err ErrUnexpectedEOF)
  else Done (Err ErrInvalidType).
Proof.
  intros Hw Hl.
  unfold getLastSequenceNumber, getLastEntryInCurrentSegment, OpenFile_rdonly.
  rewrite (Hw SysOpen), Hl. cbn [getLastEntry_loop].
  change (skipn (Z.to_nat 0) file) with file.
  unfold binary_Read_val, ReadFull. simpl (4 =? 0). rewrite (Hw SysRead).
  destruct file as [|x file]; [reflexivity|].
  replace (len (x :: file) =? 0) with false
    by (symmetry; apply Z.eqb_neq; rewrite len_cons;
        pose proof (len_nonneg file); lia).
  destruct (len (x :: file) <? 4); reflexivity.
Qed.

End RecoveryCases.

(** X12 on a segment file of two bytes. *)
Lemma recovery_by_file_length_witness :
  exists wal w,
    opened (GetWAL emptyDir false 1000 3) = Some (wal, w) /\
    getLastSequenceNumber wal
      {| files := [(segmentName 0, [x01; x02])]; refuses := quiet |}
    = Done (Err ErrUnexpectedEOF).
Proof.
  do 2 eexists.
  split; [vm_compute; reflexivity|].
  etransitivity;
    [apply (recovery_by_file_length (codec := SampleCodec) _ _ [x01; x02]);
     [intros s; reflexivity|reflexivity]|].
  reflexivity.
Defined.

(* ================================================================= *)
(** ** Writing and reading back *)

Section RoundTrip.
Context {codec : EntryCodec}.

Lemma frames_cons e es : frames (e :: es) = frame e ++ frames es.
Proof. reflexivity. Qed.

Lemma entries_from_lsn cs : forall n e,
  In e (entries_from n cs) ->
  n < LogSequenceNumber e <= n + len cs.
Proof.
  induction cs as [|[[data c] env] cs IH]; intros n e H; [destruct H|].
  cbn [entries_from] in H. rewrite len_cons.
  pose proof (len_nonneg cs).
  destruct H as [<- | H].
  - unfold newEntry. cbn [LogSequenceNumber]. lia.
  - apply IH in H. lia.
Qed.

Lemma entries_from_valid cs : forall n,
  0 <= n -> n + len cs < 2 ^ 64 ->
  Forall (fun e => len (MustMarshal e) < 2 ^ 31) (entries_from n cs) ->
  Forall valid_entry (entries_from n cs).
Proof.
  induction cs as [|[[data c] env] cs IH]; intros n H0 H1 Hl;
    [constructor|].
  cbn [entries_from] in *. rewrite len_cons in H1.
  pose proof (len_nonneg cs).
  inversion Hl as [|? ? Ha Hb]; subst.
  constructor.
  - apply newEntry_valid; [lia|exact Ha].
  - apply IH; [lia|lia|exact Hb].
Qed.

(** A run of calls on a healthy log under a system that refuses nothing,
    with room for every frame below the rotation threshold: all calls
    succeed and the frames pile up in order behind what was pending. *)
Lemma run_calls_pending cs : forall wal w n,
  healthy wal w ->
  Forall (fun c : Call => forall s, snd c s = false) cs ->
  lastSequenceNumber wal = n -> 0 <= n -> n + len cs < 2 ^ 64 ->
  len (pending wal w) + len (frames (entries_from n cs))
    < int64 (maxSegmentSize wal) ->
  exists l walf wf,
    run_calls wal w cs = Some (l, walf, wf) /\
    healthy walf wf /\
    pending walf wf = pending wal w ++ frames (entries_from n cs).
Proof.
  induction cs as [|[[data c] env] cs IH]; intros wal w n Hh Hw Hn H0 H1 Hsz.
  - exists [], wal, w. cbn [run_calls entries_from].
    unfold frames. cbn [map List.concat]. rewrite app_nil_r. auto.
  - inversion Hw as [|? ? Henv Hrest]; subst. cbn [snd] in Henv.
    rewrite len_cons in H1. pose proof (len_nonneg cs) as Hcs.
    cbn [entries_from] in *. rewrite frames_cons, len_app in Hsz.
    pose proof (len_nonneg (frames (entries_from (lastSequenceNumber wal + 1) cs))).
    pose proof (len_nonneg
                  (frame (newEntry (lastSequenceNumber wal + 1) data c))).
    assert (Hh1 : healthy wal (with_refuses w env)).
    { destruct Hh as (A & _ & B & C). split; [exact A|].
      split; [exact Henv|]. split; [exact B|exact C]. }
    destruct (writeEntry_next wal (with_refuses w env) data c
                (lastSequenceNumber wal) Hh1)
      as (wal' & w' & E & Hh' & Hp & Hl & Hm); try lia.
    { change (pending wal (with_refuses w env)) with (pending wal w). lia. }
    change (pending wal (with_refuses w env)) with (pending wal w) in Hp.
    destruct (IH wal' w' (lastSequenceNumber wal + 1) Hh' Hrest Hl)
      as (l & walf & wf & R & Hhf & Hpf); try lia.
    { rewrite Hp, Hm, len_app. lia. }
    cbn [run_calls]. rewrite E, R.
    eexists _, _, _. split; [reflexivity|]. split; [exact Hhf|].
    rewrite Hpf, Hp, frames_cons, <- app_assoc. reflexivity.
Qed.

(** X13.  Write then read: on a log opened on a directory without
    segments, any list of writes and checkpoints whose frames stay below
    the rotation threshold succeeds under a system that refuses nothing,
    and after a flush [ReadAllFromCurrent] returns exactly the entries
    built for the calls, numbered from 1, in call order; with the
    checkpoint flag it returns those from the last checkpoint on, and
    nothing when no call was a checkpoint. *)
Theorem written_entries_read_back
  (w : World) (fsync : bool) (maxSize maxSeg : Z) (cs : list Call) :
  codec_roundtrip codec ->
  willing w -> Glob w = [] ->
  Forall (fun c : Call => forall s, snd c s = false) cs ->
  Forall (fun e => len (MustMarshal e) < 2 ^ 31) (entries_from 0 cs) ->
  len (frames (entries_from 0 cs)) < int64 maxSize ->
  len cs < 2 ^ 64 ->
  exists w0 wal0 l wal1 w1 wal2 w2,
    GetWAL w fsync maxSize maxSeg = (w0, Done (Ok wal0)) /\
    run_calls wal0 w0 cs = Some (l, wal1, w1) /\
    Flush wal1 w1 = (wal2, w2, None) /\
    ReadAllFromCurrent wal2 w2 false = Done (entries_from 0 cs, None) /\
    ReadAllFromCurrent wal2 w2 true =
      Done (match from_last_checkpoint (entries_from 0 cs) with
            | Some l => l
            | None => []
            end, None).
Proof.
  intros codec_ok Hw HG Hcs Hlen Hsz Hn.
  pose proof (len_nonneg cs) as Hcs0.
  destruct (GetWAL_fresh w fsync maxSize maxSeg Hw HG)
    as (w0 & wal0 & Hopen & Hh0 & Hp0 & Hl0 & Hm0).
  destruct (run_calls_pending cs wal0 w0 0 Hh0 Hcs Hl0)
    as (l & wal1 & w1 & R & Hh1 & Hp1); try lia.
  { rewrite Hp0, Hm0. change (len (@nil byte)) with 0. lia. }
  rewrite Hp0 in Hp1. cbn [app] in Hp1.
  destruct Hh1 as (Hc1 & Hw1 & He1 & P1).
  destruct (Flush_healthy wal1 w1 Hc1 Hw1 He1) as [w2 HF].
  pose proof HF as HF'. apply Flush_ok in HF'. destruct HF' as (_ & _ & A).
  pose proof (appended_willing _ _ _ _ A Hw1) as Hw2.
  assert (Hfile : lookup (Name (currentSegment (set_writer wal1 NewWriter)))
                    (files w2) = Some (frames (entries_from 0 cs))).
  { destruct A as (_ & _ & _ & _ & Hs). cbn [set_writer currentSegment].
    rewrite (Hs P1). unfold pending in Hp1. now rewrite Hp1. }
  pose proof (entries_from_valid cs 0 ltac:(lia) ltac:(lia) Hlen) as Hv.
  exists w0, wal0, l, wal1, w1, (set_writer wal1 NewWriter), w2.
  split; [exact Hopen|]. split; [exact R|]. split; [exact HF|].
  unfold ReadAllFromCurrent, OpenFile_rdonly.
  rewrite (Hw2 SysOpen), Hfile.
  rewrite !(readAllEntriesFromFile_frames codec_ok) by auto.
  rewrite scan_unfiltered, scan_filtered. cbn [fst snd app andb].
  split; [reflexivity|].
  destruct (from_last_checkpoint (entries_from 0 cs)) as [l'|] eqn:EL;
    cbn [fst snd]; [|reflexivity].
  destruct (from_last_checkpoint_some _ _ EL) as (pre & c & post & Ees & -> & _).
  assert (Hin : In c (entries_from 0 cs))
    by (rewrite Ees; apply in_or_app; right; left; reflexivity).
  apply entries_from_lsn in Hin. cbn [head_lsn].
  replace (LogSequenceNumber c <=? 0) with false
    by (symmetry; apply Z.leb_gt; lia).
  reflexivity.
Qed.

End RoundTrip.

(** X13 on a write, a checkpoint and a write with the sample codec. *)
Lemma written_entries_read_back_witness :
  exists w0 wal0 l wal1 w1 wal2 w2,
    GetWAL emptyDir false 1000 3 = (w0, Done (Ok wal0)) /\
    run_calls wal0 w0 [(pA, false, quiet); (pB, true, quiet); (pC, false, quiet)]
      = Some (l, wal1, w1) /\
    Flush wal1 w1 = (wal2, w2, None) /\
    ReadAllFromCurrent wal2 w2 false
      = Done ([newEntry 1 pA false; newEntry 2 pB true; newEntry 3 pC false],
              None) /\
    ReadAllFromCurrent wal2 w2 true
      = Done ([newEntry 2 pB true; newEntry 3 pC false], None).
Proof.
  apply (written_entries_read_back (codec := SampleCodec)
           emptyDir false 1000 3
           [(pA, false, quiet); (pB, true, quiet); (pC, false, quiet)]).
  - exact sample_codec_roundtrip.
  - intros s; reflexivity.
  - reflexivity.
  - repeat constructor.
  - repeat constructor; vm_compute; reflexivity.
  - vm_compute; reflexivity.
  - vm_compute; reflexivity.
Defined.

(* ================================================================= *)
(** ** Damaged segment files *)

Section DamagedFiles.
Context {codec : EntryCodec}.
Hypothesis codec_ok : codec_roundtrip codec.

(** X14.  A segment that ends inside a frame, as a crash during a write
    leaves it: the scan decodes the whole frames before the tear and
    returns them with an error, the unexpected-EOF error when the length
    field or the body is cut short, and plain EOF, reported as an error,
    when a complete length field is followed by no byte of its body. *)
Theorem torn_tail_is_an_error
  (w : World) (es : list WAL_Entry) (b : bool) :
  willing w -> Forall valid_entry es ->
  (forall tail,
      0 < len tail < 4 ->
      readAllEntriesFromFile w (frames es ++ tail) b =
      Done (fst (scan b ([], 0) es), snd (scan b ([], 0) es),
            Some ErrUnexpectedEOF)) /\
  (forall n body,
      0 < n < 2 ^ 31 -> len body < n ->
      readAllEntriesFromFile w (frames es ++ le_encode 4 (int32 n) ++ body) b =
      Done (fst (scan b ([], 0) es), snd (scan b ([], 0) es),
            Some (if len body =? 0 then EOF else ErrUnexpectedEOF))).
Proof.
  intros Hw Hv. split.
  - intros tail Ht.
    rewrite (readAllEntriesFromFile_prefix codec_ok) by auto.
    cbn [readAll_loop]. unfold binary_Read_ptr, ReadFull.
    simpl (4 =? 0). rewrite (Hw SysRead).
    destruct tail as [|x tail]; [change (len (@nil byte)) with 0 in Ht; lia|].
    replace (len (x :: tail) <? 4) with true
      by (symmetry; apply Z.ltb_lt; lia).
    reflexivity.
  - intros n body Hn Hb.
    rewrite (readAllEntriesFromFile_prefix codec_ok) by auto.
    cbn [readAll_loop].
    rewrite binary_Read_ptr_frame by (auto; lia).
    replace (n <? 0) with false by (symmetry; apply Z.ltb_ge; lia).
    unfold ReadFull.
    replace (n =? 0) with false by (symmetry; apply Z.eqb_neq; lia).
    rewrite (Hw SysRead).
    destruct body as [|x body]; [reflexivity|].
    replace (len (x :: body) <? n) with true
      by (symmetry; apply Z.ltb_lt; lia).
    replace (len (x :: body) =? 0) with false
      by (symmetry; apply Z.eqb_neq; rewrite len_cons;
          pose proof (len_nonneg body); lia).
    reflexivity.
Qed.

(** X15.  A length field with its top bit set is a negative [int32]:
    the scan decodes the frames before it and then panics in
    [make([]byte, size)], whatever follows. *)
Theorem negative_length_panics
  (w : World) (es : list WAL_Entry) (b : bool) (n : Z) (rest : list byte) :
  willing w -> Forall valid_entry es ->
  2 ^ 31 <= n < 2 ^ 32 ->
  readAllEntriesFromFile w (frames es ++ le_encode 4 n ++ rest) b = Panic.
Proof.
  intros Hw Hv Hn.
  rewrite (readAllEntriesFromFile_prefix codec_ok) by auto.
  cbn [readAll_loop]. unfold binary_Read_ptr.
  replace 4 with (len (le_encode 4 n))
    by (unfold len; now rewrite le_encode_length).
  rewrite ReadFull_exact by apply Hw.
  rewrite le_decode_encode
    by (change (256 ^ Z.of_nat 4) with 4294967296;
        change (2 ^ 32) with 4294967296 in Hn; lia).
  assert (Hneg : int32 n < 0).
  { unfold int32. change (2 ^ 32) with 4294967296 in *.
    change (2 ^ 31) with 2147483648 in *.
    rewrite Z.mod_small by lia.
    destruct (n <? 2147483648) eqn:E; [apply Z.ltb_lt in E; lia|lia]. }
  replace (int32 n <? 0) with true by (symmetry; apply Z.ltb_lt; lia).
  reflexivity.
Qed.

End DamagedFiles.

(** X14 on a record followed by the first two bytes of a length field. *)
Lemma torn_tail_is_an_error_witness :
  readAllEntriesFromFile emptyDir
    (frames [newEntry 1 pA false] ++ [x05; x00]) false
  = Done ([newEntry 1 pA false], 0, Some ErrUnexpectedEOF).
Proof.
  refine (proj1 (torn_tail_is_an_error (codec := SampleCodec)
                   sample_codec_roundtrip emptyDir [newEntry 1 pA false]
                   false _ _) [x05; x00] _).
  - intros s; reflexivity.
  - repeat constructor; vm_compute; (reflexivity || discriminate).
  - vm_compute. split; reflexivity.
Defined.

(** X15 on a record followed by the length field ff ff ff ff. *)
Lemma negative_length_panics_witness :
  readAllEntriesFromFile emptyDir
    (frames [newEntry 1 pA false] ++ le_encode 4 (2 ^ 32 - 1) ++ [x00]) false
  = Panic.
Proof.
  apply (negative_length_panics (codec := SampleCodec)
           sample_codec_roundtrip emptyDir [newEntry 1 pA false] false
           (2 ^ 32 - 1) [x00]).
  - intros s; reflexivity.
  - repeat constructor; vm_compute; (reflexivity || discriminate).
  - vm_compute. split; [discriminate|reflexivity].
Defined.

(* ================================================================= *)
(** ** More on replay *)

Section ReplayEdges.
Context {codec : EntryCodec}.

Lemma ReadAllFromIndex_loop_skips w index b skipped : forall rest acc prev,
  Forall (fun f => exists i, segmentIdx f = Ok i /\ i < index) skipped ->
  ReadAllFromIndex_loop w (skipped ++ rest) index b acc prev =
  ReadAllFromIndex_loop w rest index b acc prev.
Proof.
  induction skipped as [|f skipped IH]; intros rest acc prev Hs;
    [reflexivity|].
  inversion Hs as [|? ? (i & Hi & Hlt) Hs']; subst.
  cbn [app ReadAllFromIndex_loop]. unfold segmentIdx in Hi. rewrite Hi.
  replace (i <? index) with true by (symmetry; apply Z.ltb_lt; lia).
  now apply IH.
Qed.

(** X16.  [ReadAllFromIndex] never opens a listed file whose suffix is
    below the index: such files at the head of the listing are passed
    over whatever they hold and whatever the system refuses.  So with
    nothing else listed the answer is no entries and no error, and a
    next name whose suffix does not parse ends the replay with that
    error and no entries. *)
Theorem ReadAllFromIndex_passes_over_lower_segments
  (w : World) (index : Z) (b : bool) (skipped rest : list string) :
  Glob w = skipped ++ rest ->
  Forall (fun f => exists i, segmentIdx f = Ok i /\ i < index) skipped ->
  ReadAllFromIndex w index b = ReadAllFromIndex_loop w rest index b [] 0 /\
  (rest = [] -> ReadAllFromIndex w index b = Done ([], None)) /\
  (forall f tl e,
      rest = f :: tl -> segmentIdx f = Err e ->
      ReadAllFromIndex w index b = Done ([], Some e)).
Proof.
  intros HG Hs.
  assert (H : ReadAllFromIndex w index b
              = ReadAllFromIndex_loop w rest index b [] 0).
  { unfold ReadAllFromIndex. rewrite HG.
    now apply ReadAllFromIndex_loop_skips. }
  split; [exact H|]. split.
  - intros ->. rewrite H. reflexivity.
  - intros f tl e -> He. rewrite H. cbn [ReadAllFromIndex_loop].
    unfold segmentIdx in He. rewrite He. reflexivity.
Qed.

End ReplayEdges.

(** X16 on a directory that refuses every call and lists one segment
    below the index. *)
Lemma ReadAllFromIndex_passes_over_lower_segments_witness :
  ReadAllFromIndex
    {| files := [(segmentName 1, [x01])]; refuses := fun _ => true |}
    2 false
  = Done ([], None).
Proof.
  refine (proj1 (proj2
            (ReadAllFromIndex_passes_over_lower_segments (codec := SampleCodec)
               _ 2 false [segmentName 1] [] _ _)) eq_refl).
  - reflexivity.
  - repeat constructor. exists 1. split; [reflexivity|lia].
Defined.

(* ================================================================= *)
(** ** More on opening *)

Section Opening.
Context {codec : EntryCodec}.

Lemma getLastSequenceNumber_ok wal w lsn :
  getLastSequenceNumber wal w = Done (Ok lsn) ->
  lsn = 0 /\ lookup (Name (currentSegment wal)) (files w) = Some [].
Proof.
  unfold getLastSequenceNumber, getLastEntryInCurrentSegment, OpenFile_rdonly.
  destruct (refuses w SysOpen); [discriminate|].
  destruct (lookup (Name (currentSegment wal)) (files w)) as [file|];
    [|discriminate].
  cbn [getLastEntry_loop]. change (skipn (Z.to_nat 0) file) with file.
  unfold binary_Read_val, ReadFull. simpl (4 =? 0).
  destruct (refuses w SysRead); [discriminate|].
  destruct file as [|x file].
  - intros H. injection H as <-. auto.
  - destruct (len (x :: file) <? 4); discriminate.
Qed.

(** X17.  What a successful [GetWAL] has done: the log stands on the
    open segment named after the highest listed suffix (0 for a
    directory without segments), that segment file is in the directory
    and is empty, the counter is 0 and the buffer is empty; every file
    that was in the directory is there with the same bytes. *)
Theorem GetWAL_succeeds_only_on_an_empty_segment
  (w : World) (fsync : bool) (maxSize maxSeg : Z) (w0 : World) (wal0 : WAL) :
  GetWAL w fsync maxSize maxSeg = (w0, Done (Ok wal0)) ->
  ((Glob w = [] /\ currentSegmentIndex wal0 = 0) \/
   (Glob w <> [] /\
    FindLastSegmentId (Glob w) = Ok (currentSegmentIndex wal0))) /\
  currentSegment wal0
    = {| Name := segmentName (currentSegmentIndex wal0); closed := false |} /\
  lookup (Name (currentSegment wal0)) (files w0) = Some [] /\
  lastSequenceNumber wal0 = 0 /\
  bufferWriter wal0 = NewWriter /\
  refuses w0 = refuses w /\
  (forall n c, lookup n (files w) = Some c -> lookup n (files w0) = Some c).
Proof.
  unfold GetWAL. intros H.
  destruct (refuses w SysMkdir); [discriminate|].
  assert (Hid : exists id,
             ((Glob w = [] /\ id = 0) \/
              (Glob w <> [] /\ FindLastSegmentId (Glob w) = Ok id)) /\
             match OpenFile_append w (segmentName id) with
             | (w1, Err e) => (w1, Done (Err e))
             | (w1, Ok lastSegmentFile) =>
                 if refuses w1 SysSeek then (w1, Done (Err (ErrSys SysSeek)))
                 else
                   let wal :=
                     {| currentSegment := lastSegmentFile;
                        lastSequenceNumber := 0;
                        bufferWriter := NewWriter;
                        maxSegmentSize := maxSize;
                        maxSegmentsNumber := maxSeg;
                        currentSegmentIndex := id;
                        shouldFsync := fsync |} in
                   match getLastSequenceNumber wal w1 with
                   | Panic => (w1, Panic)
                   | OutOfFuel => (w1, OutOfFuel)
                   | Done (Err e) => (w1, Done (Err e))
                   | Done (Ok lsn) => (w1, Done (Ok (set_lsn wal lsn)))
                   end
             end = (w0, Done (Ok wal0))).
  { destruct (Glob w) as [|g gs] eqn:EG.
    - exists 0. split; [left; auto|exact H].
    - destruct (FindLastSegmentId (g :: gs)) as [id|e] eqn:EF;
        [|discriminate].
      exists id. split; [right; split; [discriminate|reflexivity]|exact H]. }
  clear H. destruct Hid as (id & Hsel & H).
  assert (Hopen : exists w1,
             OpenFile_append w (segmentName id)
             = (w1, Ok {| Name := segmentName id; closed := false |}) /\
             refuses w1 = refuses w /\
             (forall n c, lookup n (files w) = Some c ->
                          lookup n (files w1) = Some c)).
  { unfold OpenFile_append in *.
    destruct (refuses w SysOpen); [discriminate|].
    destruct (lookup (segmentName id) (files w)).
    - exists w. auto.
    - eexists. split; [reflexivity|]. split; [reflexivity|].
      intros n c Hl. cbn [set_files files]. rewrite lookup_app, Hl.
      reflexivity. }
  destruct Hopen as (w1 & Ho & Hr & Hkeep). rewrite Ho in H.
  destruct (refuses w1 SysSeek); [discriminate|].
  cbv zeta in H.
  match type of H with
  | match getLastSequenceNumber ?wal ?w with _ => _ end = _ =>
      destruct (getLastSequenceNumber wal w) as [[lsn|e]| |] eqn:EL;
      try discriminate
  end.
  apply getLastSequenceNumber_ok in EL. destruct EL as [-> Hfile].
  injection H as <- <-.
  cbn [set_lsn currentSegment currentSegmentIndex lastSequenceNumber
       bufferWriter Name] in *.
  split.
  { destruct Hsel as [[? ->] | [? ?]]; [left|right]; auto. }
  repeat split; auto.
Qed.

End Opening.

(** X17 on the directory that holds the empty segment [segment-7]. *)
Lemma GetWAL_succeeds_only_on_an_empty_segment_witness :
  exists w0 wal0,
    GetWAL dir7 false 1000 3 = (w0, Done (Ok wal0)) /\
    currentSegmentIndex wal0 = 7 /\
    lookup (Name (currentSegment wal0)) (files w0) = Some [].
Proof.
  do 2 eexists.
  match goal with
  | |- ?A /\ _ => assert (H : A) by (vm_compute; reflexivity)
  end.
  split; [exact H|]. split; [reflexivity|].
  exact (proj1 (proj2 (proj2
           (GetWAL_succeeds_only_on_an_empty_segment (codec := SampleCodec)
              _ _ _ _ _ _ H)))).
Defined.

(* ================================================================= *)
(** ** The two parsers of a segment suffix *)

Lemma parse_digits_head c s n :
  parse_digits (String c s) 0 = Ok n -> is_digit c = true.
Proof.
  cbn [parse_digits]. destruct (is_digit c); [reflexivity|discriminate].
Qed.

(** X18.  [FindLastSegmentId] parses a suffix with [ParseUint], the
    replay and the retention with [Atoi].  Where [ParseUint] accepts,
    [Atoi] gives the same number below 2^63 and a range error from there
    on; a suffix with a sign is refused by [ParseUint] only. *)
Theorem suffix_parsers_compared (s : string) (n : Z) :
  ParseUint s = Ok n ->
  Atoi s = (if n <? 2 ^ 63 then Ok n else Err ErrRange) /\
  ParseUint (String "+"%char s) = Err ErrSyntax /\
  ParseUint (String "-"%char s) = Err ErrSyntax /\
  Atoi (String "+"%char s) = Atoi s /\
  Atoi (String "-"%char s)
    = (if n <=? 2 ^ 63 then Ok (- n) else Err ErrRange).
Proof.
  intros H. destruct s as [|c s]; [discriminate|].
  cbn [ParseUint] in H. pose proof (parse_digits_head _ _ _ H) as Hd.
  split; [|split; [reflexivity|split; [reflexivity|split]]].
  - rewrite (Atoi_unsigned c s Hd), H.
    rewrite Z.geb_leb.
    destruct (2 ^ 63 <=? n) eqn:E1, (n <? 2 ^ 63) eqn:E2; try reflexivity;
      [apply Z.leb_le in E1; apply Z.ltb_lt in E2; lia
      |apply Z.leb_gt in E1; apply Z.ltb_ge in E2; lia].
  - rewrite (Atoi_unsigned c s Hd).
    unfold Atoi. cbn [Ascii.eqb Bool.eqb orb negb andb]. rewrite H.
    reflexivity.
  - unfold Atoi. cbn [Ascii.eqb Bool.eqb orb negb andb]. rewrite H.
    rewrite Z.gtb_ltb.
    destruct (2 ^ 63 <? n) eqn:E1, (n <=? 2 ^ 63) eqn:E2; try reflexivity;
      [apply Z.ltb_lt in E1; apply Z.leb_le in E2; lia
      |apply Z.ltb_ge in E1; apply Z.leb_gt in E2; lia].
Qed.

(** X18 on the suffix 9223372036854775808, which is 2^63. *)
Lemma suffix_parsers_compared_witness :
  ParseUint "9223372036854775808" = Ok (2 ^ 63) /\
  Atoi "9223372036854775808" = Err ErrRange.
Proof.
  assert (H : ParseUint "9223372036854775808" = Ok (2 ^ 63))
    by (vm_compute; reflexivity).
  split; [exact H|].
  exact (proj1 (suffix_parsers_compared _ _ H)).
Defined.

(* ================================================================= *)
(** ** Failed rotations *)

Section FailedRotation.
Context {codec : EntryCodec}.

(** X19.  A rotation that fails after its flush leaves the log on the
    closed old segment: whether the close, the deletion of the oldest
    segment or the creation of the new file failed, every later write
    is turned down with the closed-file error and changes nothing.
    Only a failure of the flush itself leaves the segment as it was. *)
Theorem failed_rotation_closes_the_log
  (wal : WAL) (w : World) (wal' : WAL) (w' : World) (e : error) :
  changeLogSegment wal w = (wal', w', Some e) ->
  Flush wal w = (wal', w', Some e) \/
  (closed (currentSegment wal') = true /\
   Name (currentSegment wal') = Name (currentSegment wal) /\
   lastSequenceNumber wal' = lastSequenceNumber wal /\
   forall w2 data c, writeEntry wal' w2 data c = (wal', w2, Some ErrClosed)).
Proof.
  intros H. unfold changeLogSegment in H.
  destruct (Flush wal w) as [[wal1 w1] [e1|]] eqn:EF; [left; exact H|].
  right. apply Flush_ok in EF. destruct EF as (_ & -> & _).
  destruct (file_Close w1 (currentSegment (set_writer wal NewWriter)))
    as [f ce] eqn:EC.
  assert (Hf : closed f = true /\ Name f = Name (currentSegment wal)).
  { unfold file_Close in EC. cbn [set_writer currentSegment] in EC.
    destruct (closed (currentSegment wal)) eqn:E; injection EC as <- _; auto. }
  destruct Hf as [Hc Hn].
  assert (Hstuck : forall wal0,
             currentSegment wal0 = f ->
             forall w2 data c,
               writeEntry wal0 w2 data c = (wal0, w2, Some ErrClosed)).
  { intros wal0 Hs w2 data c.
    unfold writeEntry, changeLogSegmentIfNeeded, file_Stat_Size.
    rewrite Hs, Hc. reflexivity. }
  destruct ce as [e2|].
  - injection H as <- <- _. cbn [set_segment set_writer currentSegment
                                  lastSequenceNumber].
    repeat split; auto.
  - cbv zeta in H.
    destruct (if currentSegmentIndex
                   (set_index (set_segment (set_writer wal NewWriter) f)
                      (uint64
                         (currentSegmentIndex (set_writer wal NewWriter) + 1)))
                 >? maxSegmentsNumber
                      (set_index (set_segment (set_writer wal NewWriter) f)
                         (uint64
                            (currentSegmentIndex (set_writer wal NewWriter)
                             + 1)))
              then deleteOldestSegment w1 else (w1, None)) as [w2 [de|]].
    + injection H as <- <- _.
      cbn [set_index set_segment set_writer currentSegment
           lastSequenceNumber].
      repeat split; auto.
    + destruct (CreateSegmentFile w2 _) as [w3 [nf|ce]]; [discriminate|].
      injection H as <- <- _.
      cbn [set_index set_segment set_writer currentSegment
           lastSequenceNumber].
      repeat split; auto.
Qed.

End FailedRotation.

(** X19 on a rotation during which the system refuses to create files. *)
Lemma failed_rotation_closes_the_log_witness :
  exists wal w wal' w',
    writes 1 (opened (GetWAL emptyDir false 1 3)) = Some (wal, w) /\
    changeLogSegment wal (with_refuses w (refusing SysCreate))
      = (wal', w', Some (ErrSys SysCreate)) /\
    WriteEntry wal' w' pB = (wal', w', Some ErrClosed).
Proof.
  do 4 eexists.
  split; [vm_compute; reflexivity|].
  match goal with
  | |- ?A /\ _ => assert (H : A) by (vm_compute; reflexivity)
  end.
  split; [exact H|].
  destruct (failed_rotation_closes_the_log (codec := SampleCodec) _ _ _ _ _ H)
    as [HF | (_ & _ & _ & Hs)].
  - vm_compute in HF. discriminate HF.
  - apply Hs.
Defined.
